(** * The zip archiver of terraform-provider-archive

    A shallow embedding of [archive/zip_archiver.go] and a verification of
    its ordering, round-trip, validation and cleanup behaviour.

    The archiver drives two collaborators it does not implement: the
    filesystem ([os], [io/ioutil], [path/filepath]) and the container codec
    ([archive/zip]).  Both are modelled by what the archiver can observe of
    them: a filesystem tree that is read, a store of output files that is
    written, and an environment that says which collaborator calls fail. *)

From Stdlib Require Import ZArith NArith Strings.Ascii Strings.Byte.
From stdpp Require Import base gmap strings list sorting.

(** * Data *)

(** A Go [error] value, identified with its message. *)
Definition error : Type := string.

(** [fmt.Errorf(prefix + "%s", err)] *)
Definition fmt_Errorf (prefix : string) (err : error) : error := prefix +:+ err.

(** A Go [[]byte]. *)
Abbreviation bytes := (list byte).

(** A path that names something to read is kept cleaned and split at the
    separator: the list of its components below the filesystem root.
    [filepath.Join(p, name)] is [p ++ [name]]. *)
Definition path : Type := list string.

(** ** [os.FileMode] and [os.FileInfo] *)

Definition FileMode : Type := N.

Definition ModeDir : FileMode := N.shiftl 1 31.
Definition ModeSymlink : FileMode := N.shiftl 1 27.
Definition ModeDevice : FileMode := N.shiftl 1 26.
Definition ModeNamedPipe : FileMode := N.shiftl 1 25.
Definition ModeSocket : FileMode := N.shiftl 1 24.
Definition ModeCharDevice : FileMode := N.shiftl 1 21.
Definition ModeIrregular : FileMode := N.shiftl 1 19.
Definition ModeType : FileMode :=
  N.lor ModeDir (N.lor ModeSymlink (N.lor ModeNamedPipe (N.lor ModeSocket
    (N.lor ModeDevice (N.lor ModeCharDevice ModeIrregular))))).
Definition ModePerm : FileMode := 511%N. (* 0777 *)

(** The part of [os.FileInfo] the archiver and [zip.FileInfoHeader] read. *)
Record FileInfo : Type := mkFileInfo {
  fi_Name : string;
  fi_Mode : FileMode;
  fi_ModTime : Z
}.

Definition IsDir (fi : FileInfo) : bool :=
  negb (N.land (fi_Mode fi) ModeDir =? 0)%N.

Definition IsRegular (fi : FileInfo) : bool :=
  (N.land (fi_Mode fi) ModeType =? 0)%N.

(** ** [zip.FileHeader] and the entries of a container *)

Definition Store : N := 0%N.
Definition Deflate : N := 8%N.

Record FileHeader : Type := mkFileHeader {
  Name : string;
  Method : N;
  Modified : Z;
  Mode : FileMode
}.

Definition set_Name (n : string) (fh : FileHeader) : FileHeader :=
  mkFileHeader n (Method fh) (Modified fh) (Mode fh).
Definition set_Method (m : N) (fh : FileHeader) : FileHeader :=
  mkFileHeader (Name fh) m (Modified fh) (Mode fh).

(** An entry of a container: its header and the bytes written to it, before
    compression (what a reader of the container gets back). *)
Record Entry : Type := mkEntry {
  header : FileHeader;
  data : bytes
}.

Definition entry_name (e : Entry) : string := Name (header e).

(** A file at a target location, read as a container: the entries written so
    far in the order they were created, whether the central directory was
    written ([zip.Writer.Close] succeeded), and whether a handle is open. *)
Record Container : Type := mkContainer {
  entries : list Entry;
  finalized : bool;
  opened : bool
}.

Definition truncated : Container := mkContainer [] false true.

(** ** The filesystem that is read *)

(** A node of the tree: a regular file with what reading it gives, a symbolic
    link with the node it points to, a directory with what listing it gives
    (an error, or its children in the order [readDirNames] returns them), or
    a name whose [lstat] fails. *)
#[warnings="-register-all"]
Inductive node : Type :=
| File (perm : N) (mtime : Z) (content : error + bytes)
| Symlink (mtime : Z) (target : node)
| Dir (perm : N) (mtime : Z) (listing : option error) (children : list (string * node))
| Unstatable (e : error).

Fixpoint follow (n : node) : node :=
  match n with
  | Symlink _ t => follow t
  | _ => n
  end.

Fixpoint lookup_child (name : string) (cs : list (string * node)) : option node :=
  match cs with
  | [] => None
  | (k, c) :: cs' => if decide (k = name) then Some c else lookup_child name cs'
  end.

(** The node a path names; links on the way are followed, the last one is
    not. *)
Fixpoint resolve (n : node) (p : path) : node :=
  match p with
  | [] => n
  | name :: p' =>
      match follow n with
      | Dir _ _ _ cs =>
          match lookup_child name cs with
          | Some c => resolve c p'
          | None => Unstatable "no such file or directory"
          end
      | Unstatable e => Unstatable e
      | _ => Unstatable "not a directory"
      end
  end.

Definition Base (p : path) : string := List.last p "/".

Definition info_of (name : string) (n : node) : error + FileInfo :=
  match n with
  | File perm mt _ => inr (mkFileInfo name (N.land perm ModePerm) mt)
  | Symlink mt _ => inr (mkFileInfo name (N.lor ModeSymlink ModePerm) mt)
  | Dir perm mt _ _ => inr (mkFileInfo name (N.lor ModeDir (N.land perm ModePerm)) mt)
  | Unstatable e => inl e
  end.

Definition read_node (n : node) : error + bytes :=
  match follow n with
  | File _ _ c => c
  | Unstatable e => inl e
  | _ => inl "is a directory"
  end.

(** ** The environment: the filesystem and the failures of the collaborators *)

Record Env : Type := mkEnv {
  fs : node;
  Create_fails : string → option error;
  Rel_fails : path → path → option error;
  FileInfoHeader_fails : FileInfo → option error;
  CreateHeader_fails : list Entry → FileHeader → option error;
  Write_fails : list Entry → bytes → option error;
  WriterClose_fails : list Entry → option error;
  FileClose_fails : string → option error
}.

(** ** The archiver and the state it runs in *)

Inductive os_File : Type := FileHandle (name : string).
Inductive zip_Writer : Type := ZipWriter (sink : os_File).
Inductive io_Writer : Type := EntryWriter (w : zip_Writer) (index : nat).

Definition file_name (f : os_File) : string := let 'FileHandle n := f in n.
Definition sink_name (w : zip_Writer) : string := let 'ZipWriter f := w in file_name f.

Record zipArchiver : Type := mkArchiver {
  filepath : string;
  filewriter : option os_File;
  writer : option zip_Writer
}.

Definition newZipArchiver (filepath : string) : zipArchiver :=
  mkArchiver filepath None None.

Record State : Type := mkState {
  this : zipArchiver;
  disk : gmap string Container
}.

Definition entries_at (name : string) (s : State) : list Entry :=
  from_option entries [] (disk s !! name).

(** ** Computations: state, a returned error, or a panic *)

Inductive result (A : Type) : Type :=
| Ok (a : A)
| Err (e : error)
| Panic.
Arguments Ok {A} a.
Arguments Err {A} e.
Arguments Panic {A}.

Definition M (A : Type) : Type := State → State * result A.

Global Instance M_ret : MRet M := λ A a s, (s, Ok a).
Global Instance M_bind : MBind M := λ A B f m s,
  match m s with
  | (s', Ok a) => f a s'
  | (s', Err e) => (s', Err e)
  | (s', Panic) => (s', Panic)
  end.

Definition fail {A} (e : error) : M A := λ s, (s, Err e).
Definition panic {A} : M A := λ s, (s, Panic).
Definition get_this : M zipArchiver := λ s, (s, Ok (this s)).
Definition put_this (a : zipArchiver) : M unit := λ s, (mkState a (disk s), Ok tt).

(** A value with an error, as Go functions return them. *)
Definition lift {A} (r : error + A) : M A :=
  match r with
  | inl e => fail e
  | inr a => mret a
  end.

(** Dereferencing a pointer or calling a method on an interface: nil panics. *)
Definition deref {A} (o : option A) : M A :=
  match o with
  | Some a => mret a
  | None => panic
  end.

(** [if err != nil { return fmt.Errorf(prefix + "%s", err) }] *)
Definition wrap {A} (prefix : string) (m : M A) : M A := λ s,
  match m s with
  | (s', Err e) => (s', Err (fmt_Errorf prefix e))
  | r => r
  end.

(** [_ = m]: the error of [m] is dropped. *)
Definition ignore_error (m : M unit) : M unit := λ s,
  match m s with
  | (s', Err _) => (s', Ok tt)
  | r => r
  end.

(** [defer d] followed by [body]: [d] runs when [body] returns or panics and
    the outcome of [body] stands. *)
Definition defer {A} (d : M unit) (body : M A) : M A := λ s,
  let '(s1, r) := body s in (fst (d s1), r).

(** * The collaborators *)

Section Collaborators.
Variable env : Env.

(** ** [os] and [io/ioutil] *)

(** [os.Lstat]: a link that the path names is described, not followed. *)
Definition os_Lstat (name : path) : error + FileInfo :=
  info_of (Base name) (resolve (fs env) name).

(** [os.Stat]: links are followed to what they point to. *)
Definition os_Stat (name : path) : error + FileInfo :=
  info_of (Base name) (follow (resolve (fs env) name)).

(** [ioutil.ReadFile]: the bytes of the file the path resolves to. *)
Definition ioutil_ReadFile (filename : path) : error + bytes :=
  read_node (resolve (fs env) filename).

(** [os.Create]: the file is created or truncated and a handle returned. *)
Definition os_Create (name : string) : M os_File := λ s,
  match Create_fails env name with
  | Some e => (s, Err e)
  | None => (mkState (this s) (<[name := truncated]> (disk s)), Ok (FileHandle name))
  end.

(** [Close] of an [os.File]: the handle is released whatever is reported. *)
Definition os_File_Close (f : os_File) : M unit := λ s,
  let release c := mkContainer (entries c) (finalized c) false in
  let s' := mkState (this s) (alter release (file_name f) (disk s)) in
  match FileClose_fails env (file_name f) with
  | Some e => (s', Err e)
  | None => (s', Ok tt)
  end.

(** ** [archive/zip] *)

Definition zip_NewWriter (f : os_File) : zip_Writer := ZipWriter f.

(** [zip.FileInfoHeader]: name, modification time and mode of the file;
    the method is left at its zero value. *)
Definition zip_FileInfoHeader (fi : FileInfo) : M FileHeader :=
  match FileInfoHeader_fails env fi with
  | Some e => fail e
  | None => mret (mkFileHeader (fi_Name fi) Store (fi_ModTime fi) (fi_Mode fi))
  end.

(** [CreateHeader] of a [zip.Writer]: a new entry is appended to the container
    and a writer for its content returned. *)
Definition zip_Writer_CreateHeader (w : zip_Writer) (fh : FileHeader) : M io_Writer := λ s,
  let es := entries_at (sink_name w) s in
  match CreateHeader_fails env es fh with
  | Some e => (s, Err e)
  | None =>
      let add c := mkContainer (entries c ++ [mkEntry fh []]) (finalized c) (opened c) in
      (mkState (this s) (alter add (sink_name w) (disk s)), Ok (EntryWriter w (length es)))
  end.

(** [Create] of a [zip.Writer]: an entry with the given name and the [Deflate]
    method. *)
Definition zip_Writer_Create (w : zip_Writer) (name : string) : M io_Writer :=
  zip_Writer_CreateHeader w (mkFileHeader name Deflate 0%Z 0%N).

(** [Write] on the writer of an entry. *)
Definition io_Writer_Write (f : io_Writer) (b : bytes) : M nat := λ s,
  let '(EntryWriter w i) := f in
  match Write_fails env (entries_at (sink_name w) s) b with
  | Some e => (s, Err e)
  | None =>
      let put e := mkEntry (header e) (data e ++ b) in
      let upd c := mkContainer (alter put i (entries c)) (finalized c) (opened c) in
      (mkState (this s) (alter upd (sink_name w) (disk s)), Ok (length b))
  end.

(** [Close] of a [zip.Writer]: the central directory is written. *)
Definition zip_Writer_Close (w : zip_Writer) : M unit := λ s,
  match WriterClose_fails env (entries_at (sink_name w) s) with
  | Some e => (s, Err e)
  | None =>
      let fin c := mkContainer (entries c) true (opened c) in
      (mkState (this s) (alter fin (sink_name w) (disk s)), Ok tt)
  end.

(** ** [path/filepath] *)

(** The components of [targ] relative to [base]. *)
Fixpoint rel_components (base targ : path) : path :=
  match base, targ with
  | b :: base', t :: targ' =>
      if decide (b = t) then rel_components base' targ'
      else replicate (length base) ".." ++ targ
  | _, _ => replicate (length base) ".." ++ targ
  end.

Definition join_components (cs : path) : string :=
  match cs with
  | [] => "."
  | _ => String.concat "/" cs
  end.

Definition filepath_Rel (basepath targpath : path) : M string :=
  match Rel_fails env basepath targpath with
  | Some e => fail e
  | None => mret (join_components (rel_components basepath targpath))
  end.

Definition WalkFunc : Type := path → option FileInfo → option error → M unit.

(** [for _, x := range l { if err := f(x); err != nil { return err } }] *)
Fixpoint for_each {A} (f : A → M unit) (l : list A) : M unit :=
  match l with
  | [] => mret tt
  | x :: l' => f x ;; for_each f l'
  end.

(** [filepath.walk]: a name whose [lstat] fails is reported with a nil
    [FileInfo]; a directory is reported with the result of listing it and
    then, when that succeeded and the function returned nil, its children
    are walked in turn; anything else is reported alone.  A non-nil return
    of the function ends the walk.  ([filepath.SkipDir] is a value the
    function of [ArchiveDir] has no way to build and is left out.) *)
Fixpoint walk (walkFn : WalkFunc) (p : path) (n : node) {struct n} : M unit :=
  match n with
  | Unstatable e => walkFn p None (Some e)
  | Dir perm mt listing children =>
      let info := mkFileInfo (Base p) (N.lor ModeDir (N.land perm ModePerm)) mt in
      match listing with
      | Some e => walkFn p (Some info) (Some e)
      | None =>
          walkFn p (Some info) None ;;
          for_each (λ nc, walk walkFn (p ++ [nc.1]) nc.2) children
      end
  | File perm mt _ => walkFn p (Some (mkFileInfo (Base p) (N.land perm ModePerm) mt)) None
  | Symlink mt _ => walkFn p (Some (mkFileInfo (Base p) (N.lor ModeSymlink ModePerm) mt)) None
  end.

Definition filepath_Walk (root : path) (walkFn : WalkFunc) : M unit :=
  walk walkFn root (resolve (fs env) root).

(** ** [sort] *)

(** [sort.Strings]: increasing order, strings compared byte by byte. *)
Definition sort_Strings (x : list string) : list string := merge_sort String.le x.

End Collaborators.

(** * The archiver *)

Section Archiver.
Variable env : Env.

(** Modelled from the spec: [assertValidFile] is called by [ArchiveFile]
    and declared in a file that is not part of the sources at hand.  The
    path has to resolve to an existing regular file: not absent, not a
    directory, not a special file; a failing [stat] is an error too. *)
Definition assertValidFile (infilename : path) : error + FileInfo :=
  match os_Stat env infilename with
  | inl e => inl (fmt_Errorf "could not archive missing file: " e)
  | inr fi =>
      if IsRegular fi then inr fi
      else inl "could not archive file that is not a regular file"
  end.

(** Modelled from the spec: [assertValidDir] is called by [ArchiveDir] and
    declared in a file that is not part of the sources at hand.  The path
    has to resolve to an existing directory. *)
Definition assertValidDir (indirname : path) : error + FileInfo :=
  match os_Stat env indirname with
  | inl e => inl (fmt_Errorf "could not archive missing directory: " e)
  | inr fi =>
      if IsDir fi then inr fi
      else inl "could not archive directory that is a file"
  end.

Definition open : M unit :=
  a ← get_this;
  f ← os_Create env (filepath a);
  put_this (mkArchiver (filepath a) (Some f) (writer a));;
  a ← get_this;
  put_this (mkArchiver (filepath a) (filewriter a) (Some (zip_NewWriter f))).

Definition close : M unit :=
  a ← get_this;
  match writer a with
  | Some w =>
      (* ignore errors *)
      ignore_error (zip_Writer_Close env w);;
      a ← get_this;
      put_this (mkArchiver (filepath a) (filewriter a) None)
  | None => mret tt
  end;;
  a ← get_this;
  match filewriter a with
  | Some f =>
      (* ignore errors *)
      ignore_error (os_File_Close env f);;
      a ← get_this;
      put_this (mkArchiver (filepath a) None (writer a))
  | None => mret tt
  end.

Definition ArchiveContent (content : bytes) (infilename : string) : M unit :=
  open;;
  defer close (
    a ← get_this;
    w ← deref (writer a);
    f ← zip_Writer_Create env w infilename;
    _ ← io_Writer_Write env f content;
    mret tt).

Definition ArchiveFile (infilename : path) : M unit :=
  fi ← lift (assertValidFile infilename);
  content ← lift (ioutil_ReadFile env infilename);
  open;;
  defer close (
    fh ← wrap "error creating file header: " (zip_FileInfoHeader env fi);
    let fh := set_Name (fi_Name fi) fh in
    let fh := set_Method Deflate fh in
    a ← get_this;
    w ← deref (writer a);
    f ← wrap "error creating file inside archive: " (zip_Writer_CreateHeader env w fh);
    _ ← io_Writer_Write env f content;
    mret tt).

(** The function [ArchiveDir] hands to [filepath.Walk]. *)
Definition ArchiveDir_walkFn (indirname : path) : WalkFunc := λ path info err,
  info ← deref info;
  if IsDir info then mret tt
  else
    match err with
    | Some err => fail err
    | None =>
        relname ← wrap "error relativizing file for archival: "
                    (filepath_Rel env indirname path);
        fh ← wrap "error creating file header: " (zip_FileInfoHeader env info);
        let fh := set_Name relname fh in
        let fh := set_Method Deflate fh in
        a ← get_this;
        w ← deref (writer a);
        f ← wrap "error creating file inside archive: " (zip_Writer_CreateHeader env w fh);
        content ← wrap "error reading file for archival: "
                    (lift (ioutil_ReadFile env path));
        _ ← io_Writer_Write env f content;
        mret tt
    end.

Definition ArchiveDir (indirname : path) : M unit :=
  _ ← lift (assertValidDir indirname);
  open;;
  defer close (filepath_Walk env indirname (ArchiveDir_walkFn indirname)).

(** [keys[i] = k; i++] for each [k] the [range] over the map yields;
    an index out of range panics. *)
Fixpoint collect_keys (range : list string) (keys : list string) (i : nat)
  : M (list string) :=
  match range with
  | [] => mret keys
  | k :: range' =>
      if decide (i < length keys) then collect_keys range' (<[i := k]> keys) (S i)
      else panic
  end.

Fixpoint write_each (content : gmap string bytes) (keys : list string) : M unit :=
  match keys with
  | [] => mret tt
  | filename :: keys' =>
      a ← get_this;
      w ← deref (writer a);
      f ← zip_Writer_Create env w filename;
      _ ← io_Writer_Write env f (default [] (content !! filename));
      write_each content keys'
  end.

(** [range] is the order in which the [range] clause yields the keys of
    [content]: Go leaves it unspecified, any arrangement of the keys may
    come. *)
Definition ArchiveMultiple (range : list string) (content : gmap string bytes) : M unit :=
  open;;
  defer close (
    (* Ensure files are processed in the same order so hashes don't change *)
    keys ← collect_keys range (replicate (size content) "") 0;
    let keys := sort_Strings keys in
    write_each content keys).

End Archiver.

Definition range_of (range : list string) (content : gmap string bytes) : Prop :=
  range ≡ₚ (map_to_list content).*1.

Definition run {A} (m : M A) (a : zipArchiver) (d : gmap string Container) : State * result A :=
  m (mkState a d).

(** * Vocabulary of the specification *)

(** The state of an archiver bound to [p] between [open] and [close], the
    container at [p] being [c]. *)
Abbreviation writing p d c :=
  (mkState (mkArchiver p (Some (FileHandle p)) (Some (ZipWriter (FileHandle p))))
           (<[p%string := c]> d)).

(** The state after [close]. *)
Abbreviation closed p d c := (mkState (mkArchiver p None None) (<[p%string := c]> d)).

Definition add_entries (c : Container) (es : list Entry) : Container :=
  mkContainer (entries c ++ es) (finalized c) (opened c).

(** What [close] leaves of a container. *)
Definition after_close (env : Env) (c : Container) : Container :=
  mkContainer (entries c)
    (match WriterClose_fails env (entries c) with
     | Some _ => finalized c
     | None => true
     end)
    false.

(** The cleanup has run: the archiver holds no writer and no handle, and the
    handle on the container at its target is released. *)
Definition cleaned_up (a : zipArchiver) (s : State) : Prop :=
  writer (this s) = None ∧ filewriter (this s) = None ∧
  ∃ c, disk s !! filepath a = Some c ∧ opened c = false.

(** The same environment with other failures of the two [Close] calls. *)
Definition with_close (env : Env) (wc : list Entry → option error)
    (fc : string → option error) : Env :=
  mkEnv (fs env) (Create_fails env) (Rel_fails env) (FileInfoHeader_fails env)
        (CreateHeader_fails env) (Write_fails env) wc fc.

(** Strictly increasing in the byte-wise order of strings. *)
Definition string_lt (s1 s2 : string) : Prop := String.le s1 s2 ∧ s1 ≠ s2.

(** The entry [ArchiveMultiple] writes for the key [k] of [content]. *)
Definition entry_of_key (content : gmap string bytes) (k : string) : Entry :=
  mkEntry (mkFileHeader k Deflate 0%Z 0%N) (default [] (content !! k)).

(** The name [ArchiveDir] gives to the entry of the file at [p]. *)
Definition relname (indirname p : path) : string :=
  join_components (rel_components indirname p).

(** Everything below [n] that is not a directory, with the [FileInfo] the
    walk reports for it, in the order of the walk. *)
Fixpoint objects (p : path) (n : node) {struct n} : list (path * FileInfo) :=
  match n with
  | File perm mt _ => [(p, mkFileInfo (Base p) (N.land perm ModePerm) mt)]
  | Symlink mt _ => [(p, mkFileInfo (Base p) (N.lor ModeSymlink ModePerm) mt)]
  | Dir _ _ _ children => children ≫= (λ nc, objects (p ++ [nc.1]) nc.2)
  | Unstatable _ => []
  end.

(** The paths of the same, relative to [n]. *)
Fixpoint relative_paths (n : node) : list path :=
  match n with
  | File _ _ _ => [[]]
  | Symlink _ _ => [[]]
  | Dir _ _ _ children => children ≫= (λ nc, (nc.1 ::.) <$> relative_paths nc.2)
  | Unstatable _ => []
  end.

(** The regular files among them. *)
Definition regular_files (p : path) (n : node) : list (path * FileInfo) :=
  filter (λ x, IsRegular x.2 = true) (objects p n).

(** Every directory of the tree can be listed. *)
Fixpoint listable (n : node) : bool :=
  match n with
  | Dir _ _ listing children =>
      match listing with
      | None => forallb (λ nc, listable nc.2) children
      | Some _ => false
      end
  | _ => true
  end.

Fixpoint has_separator (s : string) : bool :=
  match s with
  | EmptyString => false
  | String c s' => if Ascii.eqb c "/"%char then true else has_separator s'
  end.

(** What every filesystem guarantees of a tree: the names in a directory are
    pairwise distinct and hold no separator. *)
Fixpoint well_formed (n : node) : bool :=
  match n with
  | Dir _ _ _ children =>
      bool_decide (NoDup children.*1) &&
      forallb (λ nc, negb (has_separator nc.1) && well_formed nc.2) children
  | Symlink _ target => well_formed target
  | _ => true
  end.

(** What a call left at the target of the archiver has pairwise distinct
    names; a call that did not get to open the target left the disk as it
    was. *)
Definition names_distinct (a : zipArchiver) (d : gmap string Container)
    (out : State * result unit) : Prop :=
  disk out.1 = d ∨
  ∃ c, disk out.1 !! filepath a = Some c ∧ NoDup (entry_name <$> entries c).

(** The names and contents of the entries at [name], in order. *)
Definition listing_at (name : string) (s : State) : list (string * bytes) :=
  (λ e, (entry_name e, data e)) <$> entries_at name s.

(** The entry [e] is the one [ArchiveDir] writes for the object [x]: named
    by its path relative to the root, with the mode and time of the object,
    deflated, and holding what reading the path gives. *)
Definition entry_of_object (env : Env) (indirname : path) (e : Entry)
    (x : path * FileInfo) : Prop :=
  header e = mkFileHeader (relname indirname x.1) Deflate (fi_ModTime x.2) (fi_Mode x.2) ∧
  ioutil_ReadFile env x.1 = inr (data e).

(** A successful [ArchiveDir] leaves a container with one entry for each
    element of [sources], and no other entry. *)
Definition ArchiveDir_archives (sources : list (path * FileInfo)) (env : Env)
    (a : zipArchiver) (d : gmap string Container) (indirname : path) : Prop :=
  ∀ s', run (ArchiveDir env indirname) a d = (s', Ok tt) →
    ∃ c sources', disk s' !! filepath a = Some c ∧ sources' ≡ₚ sources ∧
                  Forall2 (entry_of_object env indirname) (entries c) sources'.

(** Between [open] and [close], [m] appends entries to the container at [p]
    and touches nothing else; the entries it appends are entries of
    [sources], in their order, and when it returns nil and [complete] holds
    they are the entries of all of [sources]. *)
Definition adds (env : Env) (indirname : path) (p : string)
    (d : gmap string Container) (m : M unit) (sources : list (path * FileInfo))
    (complete : bool) : Prop :=
  ∀ c, ∃ es r,
    m (writing p d c) = (writing p d (add_entries c es), r) ∧
    entry_name <$> es `sublist_of` (relname indirname <$> sources.*1) ∧
    (r = Ok tt → complete = true → Forall2 (entry_of_object env indirname) es sources).

(** One entry for each regular file below the root, and no other. *)
Definition one_entry_per_regular_file (env : Env) (a : zipArchiver)
    (d : gmap string Container) (indirname : path) : Prop :=
  ArchiveDir_archives (regular_files indirname (resolve (fs env) indirname))
    env a d indirname.


(** ** Vocabulary of the outcomes *)

(** What the walk hands to the function of [ArchiveDir] and is not a
    directory, in the order of the walk: as [objects], but nothing below a
    directory that cannot be listed. *)
Fixpoint visited (p : path) (n : node) {struct n} : list (path * FileInfo) :=
  match n with
  | File perm mt _ => [(p, mkFileInfo (Base p) (N.land perm ModePerm) mt)]
  | Symlink mt _ => [(p, mkFileInfo (Base p) (N.lor ModeSymlink ModePerm) mt)]
  | Dir _ _ (Some _) _ => []
  | Dir _ _ None children => children ≫= (λ nc, visited (p ++ [nc.1]) nc.2)
  | Unstatable _ => []
  end.

(** The walk meets no name whose [lstat] fails. *)
Fixpoint statable (n : node) : bool :=
  match n with
  | Unstatable _ => false
  | Dir _ _ None children => forallb (λ nc, statable nc.2) children
  | _ => true
  end.

(** The header [ArchiveDir] builds for the object [x]. *)
Definition header_of_object (indirname : path) (x : path * FileInfo) : FileHeader :=
  mkFileHeader (relname indirname x.1) Deflate (fi_ModTime x.2) (fi_Mode x.2).

(** The function of [ArchiveDir] fails at the object [x] with the error [e],
    the container holding [before]: the step that failed, the steps before it
    having succeeded, and whether the entry of [x] had been created by
    then. *)
Inductive fails_at (env : Env) (indirname : path) (before : list Entry)
    (x : path * FileInfo) : bool → error → Prop :=
| fails_at_Rel e :
    Rel_fails env indirname x.1 = Some e →
    fails_at env indirname before x false
      (fmt_Errorf "error relativizing file for archival: " e)
| fails_at_FileInfoHeader e :
    Rel_fails env indirname x.1 = None →
    FileInfoHeader_fails env x.2 = Some e →
    fails_at env indirname before x false (fmt_Errorf "error creating file header: " e)
| fails_at_CreateHeader e :
    Rel_fails env indirname x.1 = None →
    FileInfoHeader_fails env x.2 = None →
    CreateHeader_fails env before (header_of_object indirname x) = Some e →
    fails_at env indirname before x false
      (fmt_Errorf "error creating file inside archive: " e)
| fails_at_ReadFile e :
    Rel_fails env indirname x.1 = None →
    FileInfoHeader_fails env x.2 = None →
    CreateHeader_fails env before (header_of_object indirname x) = None →
    ioutil_ReadFile env x.1 = inl e →
    fails_at env indirname before x true (fmt_Errorf "error reading file for archival: " e)
| fails_at_Write content e :
    Rel_fails env indirname x.1 = None →
    FileInfoHeader_fails env x.2 = None →
    CreateHeader_fails env before (header_of_object indirname x) = None →
    ioutil_ReadFile env x.1 = inr content →
    Write_fails env (before ++ [mkEntry (header_of_object indirname x) []]) content = Some e →
    fails_at env indirname before x true e.

(** How a walk over [sources] ends, the container holding [prior] when it
    starts and [es] being what it appends.  The sources split into those
    done and the rest, and [es] starts with the complete entries of those
    done.  On nil nothing is left to do.  On an error the walk stopped at the
    first of the rest, at the step and with the error [fails_at] tells, and
    [es] ends there, with the entry of that object when it had been created.
    On a panic [es] ends with those done. *)
Definition walk_outcome (env : Env) (indirname : path) (prior : list Entry)
    (sources : list (path * FileInfo)) (es : list Entry) (r : result unit) : Prop :=
  ∃ full done rest,
    sources = done ++ rest ∧
    Forall2 (entry_of_object env indirname) full done ∧
    match r with
    | Ok _ => es = full ∧ rest = []
    | Panic => es = full
    | Err e =>
        ∃ x rest' started,
          rest = x :: rest' ∧
          fails_at env indirname (prior ++ full) x started e ∧
          if started : bool
          then ∃ e', header e' = header_of_object indirname x ∧ es = full ++ [e']
          else es = full
    end.

(** Between [open] and [close], whatever else the disk holds, [m] appends to
    the container at [p] entries that end as [walk_outcome] tells, and does
    not panic when [safe] holds. *)
Definition walks (env : Env) (indirname : path) (p : string) (m : M unit)
    (sources : list (path * FileInfo)) (safe : bool) : Prop :=
  ∀ c, ∃ es r,
    walk_outcome env indirname (entries c) sources es r ∧
    (safe = true → r ≠ Panic) ∧
    ∀ d, m (writing p d c) = (writing p d (add_entries c es), r).

(** The loop of [ArchiveMultiple] fails at the key [k] with the error [e],
    the container holding [before]: at [Create], or at [Write] with the entry
    of [k] created. *)
Inductive key_fails_at (env : Env) (content : gmap string bytes)
    (before : list Entry) (k : string) : bool → error → Prop :=
| key_fails_at_Create e :
    CreateHeader_fails env before (header (entry_of_key content k)) = Some e →
    key_fails_at env content before k false e
| key_fails_at_Write e :
    CreateHeader_fails env before (header (entry_of_key content k)) = None →
    Write_fails env (before ++ [mkEntry (header (entry_of_key content k)) []])
      (default [] (content !! k)) = Some e →
    key_fails_at env content before k true e.

(** How the loop of [ArchiveMultiple] over [keys] ends: never in a panic; on
    nil with the entries of all keys; on an error with the entries of the
    keys before the one it failed at, and the entry of that one when it had
    been created. *)
Definition keys_outcome (env : Env) (content : gmap string bytes)
    (prior : list Entry) (keys : list string) (es : list Entry)
    (r : result unit) : Prop :=
  ∃ done rest,
    keys = done ++ rest ∧
    match r with
    | Ok _ => es = entry_of_key content <$> done ∧ rest = []
    | Panic => False
    | Err e =>
        ∃ k rest' started,
          rest = k :: rest' ∧
          key_fails_at env content (prior ++ (entry_of_key content <$> done)) k started e ∧
          if started : bool
          then ∃ e', header e' = header (entry_of_key content k) ∧
                     es = (entry_of_key content <$> done) ++ [e']
          else es = entry_of_key content <$> done
    end.

(** What a call of [op] on an archiver bound to [p] returns and leaves does
    not depend on what the disk held, at [p] or elsewhere, nor on the handles
    the archiver held: either it returns before the target is open and
    changes nothing, or it leaves the archiver without handles and at [p] one
    container, closed. *)
Definition determined (p : string) (op : M unit) : Prop :=
  ∃ (left : option Container) (r : result unit),
    (∀ c, left = Some c → opened c = false) ∧
    ∀ a d, filepath a = p →
      run op a d =
        (match left with
         | Some c => closed p d c
         | None => mkState a d
         end, r).

(** A call that started from [a] and [d] and ended in [s'] kept to its
    target: the archiver is still bound to it, every other file is as it was,
    no handle was left open that was not open before, and an archiver that
    held no handle holds none. *)
Definition kept_to_target (a : zipArchiver) (d : gmap string Container)
    (s' : State) : Prop :=
  filepath (this s') = filepath a ∧
  (∀ q, q ≠ filepath a → disk s' !! q = d !! q) ∧
  (∀ q c, disk s' !! q = Some c → opened c = true → d !! q = Some c) ∧
  (writer a = None → filewriter a = None → this s' = a).

(** What a failed call leaves at [p] of a single entry: a closed, complete
    container with at most one entry, and no byte in it. *)
Definition empty_archive_at (p : string) (s : State) : Prop :=
  ∃ c, disk s !! p = Some c ∧ opened c = false ∧ finalized c = true ∧
       length (entries c) ≤ 1 ∧ Forall (λ e, data e = []) (entries c).

(** ** Environments and trees of the examples *)

Definition no_failures (t : node) : Env :=
  mkEnv t (λ _, None) (λ _ _, None) (λ _, None) (λ _ _, None) (λ _ _, None)
        (λ _, None) (λ _, None).

Definition text (s : string) : bytes := String.list_byte_of_string s.

(** [sub/x.txt] and [y.txt] below [src]. *)
Definition tree_plain : node :=
  Dir 493 0 None
    [("src", Dir 493 1 None
       [("sub", Dir 493 2 None [("x.txt", File 420 3 (inr (text "x")))]);
        ("y.txt", File 420 4 (inr (text "y")))])].


(** [src] holds a directory that cannot be listed. *)
Definition tree_with_locked_dir : node :=
  Dir 493 0 None
    [("src", Dir 493 1 None
       [("locked", Dir 0 2 (Some "open src/locked: permission denied")
                     [("secret.txt", File 420 3 (inr (text "s")))]);
        ("y.txt", File 420 4 (inr (text "y")))])].

(** [src] holds a name that cannot be examined. *)
Definition tree_with_unstatable : node :=
  Dir 493 0 None
    [("src", Dir 493 1 None
       [("gone", Unstatable "lstat src/gone: permission denied");
        ("y.txt", File 420 4 (inr (text "y")))])].

(** [src] holds a file that cannot be read. *)
Definition tree_with_unreadable : node :=
  Dir 493 0 None
    [("src", Dir 493 1 None
       [("y.txt", File 0 4 (inl "open src/y.txt: permission denied"))])].

Definition two_files : gmap string bytes :=
  <["b.txt" := text "2"]> (<["a.txt" := text "1"]> ∅).

(** [src] holds directories and no file. *)
Definition tree_without_files : node :=
  Dir 493 0 None
    [("src", Dir 493 1 None
       [("a", Dir 493 2 None [("b", Dir 493 3 None [])]);
        ("c", Dir 493 4 None [])])].

(** The target cannot be created. *)
Definition no_target (t : node) : Env :=
  mkEnv t (λ _, Some "open out.zip: permission denied") (λ _ _, None) (λ _, None)
        (λ _ _, None) (λ _ _, None) (λ _, None) (λ _, None).

(** Nothing can be written once the container holds an entry. *)
Definition full_after_one (t : node) : Env :=
  mkEnv t (λ _, None) (λ _ _, None) (λ _, None)
        (λ es _, match es with [] => None | _ => Some "write out.zip: no space left" end)
        (λ _ _, None) (λ _, None) (λ _, None).

(** No byte can be written. *)
Definition no_space (t : node) : Env :=
  mkEnv t (λ _, None) (λ _ _, None) (λ _, None) (λ _ _, None)
        (λ _ _, Some "write out.zip: no space left") (λ _, None) (λ _, None).

(** * Running the operations *)

Ltac run_monad :=
  repeat progress
    (unfold mbind, M_bind, mret, M_ret, get_this, put_this, deref, lift, fail,
       panic, wrap, ignore_error, defer;
     cbn [this disk filepath filewriter writer fst snd]).

Section Steps.
Variable env : Env.
Variables (a : zipArchiver) (p : string) (d : gmap string Container).

Lemma entries_at_insert c : entries_at p (mkState a (<[p := c]> d)) = entries c.
Proof. unfold entries_at; cbn. by rewrite lookup_insert_eq. Qed.

Lemma CreateHeader_run c fh :
  zip_Writer_CreateHeader env (ZipWriter (FileHandle p)) fh (mkState a (<[p := c]> d)) =
  match CreateHeader_fails env (entries c) fh with
  | Some e => (mkState a (<[p := c]> d), Err e)
  | None => (mkState a (<[p := add_entries c [mkEntry fh []]]> d),
             Ok (EntryWriter (ZipWriter (FileHandle p)) (length (entries c))))
  end.
Proof.
  unfold zip_Writer_CreateHeader. rewrite entries_at_insert. cbn.
  destruct (CreateHeader_fails env (entries c) fh); [done|].
  by rewrite alter_insert_eq.
Qed.

(** Writing to the entry that was created last. *)
Lemma Write_run c fh b0 b :
  io_Writer_Write env (EntryWriter (ZipWriter (FileHandle p)) (length (entries c))) b
    (mkState a (<[p := add_entries c [mkEntry fh b0]]> d)) =
  match Write_fails env (entries c ++ [mkEntry fh b0]) b with
  | Some e => (mkState a (<[p := add_entries c [mkEntry fh b0]]> d), Err e)
  | None => (mkState a (<[p := add_entries c [mkEntry fh (b0 ++ b)]]> d), Ok (length b))
  end.
Proof.
  unfold io_Writer_Write. rewrite entries_at_insert. cbn.
  destruct (Write_fails env _ b); [done|].
  rewrite alter_insert_eq. unfold add_entries; cbn.
  replace (length (entries c)) with (length (entries c) + 0) by lia.
  by rewrite alter_app_r.
Qed.

End Steps.

Lemma open_run env a d :
  open env (mkState a d) =
  match Create_fails env (filepath a) with
  | Some e => (mkState a d, Err e)
  | None => (writing (filepath a) d truncated, Ok tt)
  end.
Proof.
  unfold open, os_Create. run_monad.
  by destruct (Create_fails env (filepath a)).
Qed.

Lemma close_run env p d c :
  close env (writing p d c) = (closed p d (after_close env c), Ok tt).
Proof.
  unfold close, after_close, zip_Writer_Close, os_File_Close.
  run_monad. rewrite entries_at_insert. cbn.
  destruct (WriterClose_fails env (entries c)); cbn;
    destruct (FileClose_fails env p); cbn;
    rewrite ?alter_insert_eq; cbn; rewrite ?entries_at_insert; done.
Qed.

Lemma add_entries_nil c : add_entries c [] = c.
Proof. destruct c; unfold add_entries; cbn. by rewrite app_nil_r. Qed.

Lemma add_entries_app c es1 es2 :
  add_entries (add_entries c es1) es2 = add_entries c (es1 ++ es2).
Proof. unfold add_entries; cbn. by rewrite app_assoc. Qed.

(** A container that was being written ends with its central directory
    exactly when [Close] of the writer did not fail. *)
Lemma after_close_finalized env c :
  finalized c = false →
  finalized (after_close env c) = true ↔ WriterClose_fails env (entries c) = None.
Proof.
  intros Hc. unfold after_close; cbn [finalized].
  destruct (WriterClose_fails env (entries c)); [by rewrite Hc|done].
Qed.

Lemma lookup_closed p d c : disk (closed p d c) !! p = Some c.
Proof. cbn. apply lookup_insert_eq. Qed.

Lemma cleaned_up_closed a d c :
  opened c = false → cleaned_up a (closed (filepath a) d c).
Proof. intros Hc. repeat split; [done..|]. exists c. by rewrite lookup_closed. Qed.

(** ** [ArchiveContent] *)

Lemma ArchiveContent_run env content name a d :
  run (ArchiveContent env content name) a d =
  match Create_fails env (filepath a) with
  | Some e => (mkState a d, Err e)
  | None =>
      let fh := mkFileHeader name Deflate 0%Z 0%N in
      match CreateHeader_fails env [] fh with
      | Some e => (closed (filepath a) d (after_close env truncated), Err e)
      | None =>
          match Write_fails env [mkEntry fh []] content with
          | Some e =>
              (closed (filepath a) d
                 (after_close env (add_entries truncated [mkEntry fh []])), Err e)
          | None =>
              (closed (filepath a) d
                 (after_close env (add_entries truncated [mkEntry fh content])), Ok tt)
          end
      end
  end.
Proof.
  unfold run, ArchiveContent. unfold mbind at 1, M_bind at 1.
  rewrite open_run. destruct (Create_fails env (filepath a)); [done|].
  unfold zip_Writer_Create. run_monad.
  rewrite CreateHeader_run. cbn [entries truncated].
  destruct (CreateHeader_fails env [] _).
  { by rewrite close_run. }
  rewrite (Write_run env _ _ d truncated). cbn [entries truncated app].
  destruct (Write_fails env _ content); by rewrite close_run.
Qed.

(** ** [ArchiveFile] *)

Lemma ArchiveFile_run env infilename a d :
  run (ArchiveFile env infilename) a d =
  match assertValidFile env infilename with
  | inl e => (mkState a d, Err e)
  | inr fi =>
      match ioutil_ReadFile env infilename with
      | inl e => (mkState a d, Err e)
      | inr content =>
          match Create_fails env (filepath a) with
          | Some e => (mkState a d, Err e)
          | None =>
              match FileInfoHeader_fails env fi with
              | Some e =>
                  (closed (filepath a) d (after_close env truncated),
                   Err (fmt_Errorf "error creating file header: " e))
              | None =>
                  let fh := mkFileHeader (fi_Name fi) Deflate (fi_ModTime fi) (fi_Mode fi) in
                  match CreateHeader_fails env [] fh with
                  | Some e =>
                      (closed (filepath a) d (after_close env truncated),
                       Err (fmt_Errorf "error creating file inside archive: " e))
                  | None =>
                      match Write_fails env [mkEntry fh []] content with
                      | Some e =>
                          (closed (filepath a) d
                             (after_close env (add_entries truncated [mkEntry fh []])),
                           Err e)
                      | None =>
                          (closed (filepath a) d
                             (after_close env (add_entries truncated [mkEntry fh content])),
                           Ok tt)
                      end
                  end
              end
          end
      end
  end.
Proof.
  unfold run, ArchiveFile. unfold mbind at 1, M_bind at 1.
  destruct (assertValidFile env infilename) as [e|fi]; [done|].
  unfold lift at 1, mret at 1, M_ret at 1. unfold mbind at 1, M_bind at 1.
  destruct (ioutil_ReadFile env infilename) as [e|content]; [done|].
  unfold lift at 1, mret at 1, M_ret at 1. unfold mbind at 1, M_bind at 1.
  rewrite open_run. destruct (Create_fails env (filepath a)); [done|].
  unfold zip_FileInfoHeader. run_monad.
  destruct (FileInfoHeader_fails env fi); run_monad.
  { by rewrite close_run. }
  unfold set_Method, set_Name; cbn [Name Method Modified Mode].
  rewrite CreateHeader_run. cbn [entries truncated].
  destruct (CreateHeader_fails env [] _).
  { by rewrite close_run. }
  rewrite (Write_run env _ _ d truncated). cbn [entries truncated app].
  destruct (Write_fails env _ content); by rewrite close_run.
Qed.


(** ** The start of [ArchiveDir] *)

Lemma ArchiveDir_run env indirname a d :
  run (ArchiveDir env indirname) a d =
  match assertValidDir env indirname with
  | inl e => (mkState a d, Err e)
  | inr _ =>
      match Create_fails env (filepath a) with
      | Some e => (mkState a d, Err e)
      | None =>
          let '(s1, r) :=
            filepath_Walk env indirname (ArchiveDir_walkFn env indirname)
              (writing (filepath a) d truncated) in
          ((close env s1).1, r)
      end
  end.
Proof.
  unfold run, ArchiveDir. unfold mbind at 1, M_bind at 1.
  destruct (assertValidDir env indirname) as [e|fi]; [done|].
  unfold lift at 1, mret at 1, M_ret at 1. unfold mbind at 1, M_bind at 1.
  rewrite open_run. by destruct (Create_fails env (filepath a)).
Qed.

(** ** The walk of [ArchiveDir] *)

Lemma node_ind2 (P : node → Prop) :
  (∀ perm mt c, P (File perm mt c)) →
  (∀ mt t, P t → P (Symlink mt t)) →
  (∀ perm mt l cs, Forall (λ nc, P nc.2) cs → P (Dir perm mt l cs)) →
  (∀ e, P (Unstatable e)) →
  ∀ n, P n.
Proof.
  intros HF HS HD HU. fix IH 1. intros [perm mt c|mt t|perm mt l cs|e].
  - apply HF.
  - apply HS, IH.
  - apply HD. induction cs as [|[name c] cs IHcs]; constructor; [apply IH|apply IHcs].
  - apply HU.
Qed.

Lemma IsDir_dir name perm mt :
  IsDir (mkFileInfo name (N.lor ModeDir (N.land perm ModePerm)) mt) = true.
Proof.
  unfold IsDir; cbn [fi_Mode]. rewrite N.land_lor_distr_l, N.land_diag.
  destruct (N.eqb_spec (N.lor ModeDir (N.land (N.land perm ModePerm) ModeDir)) 0) as [H|H];
    [|done].
  apply N.lor_eq_0_iff in H as [H _]. vm_compute in H. discriminate.
Qed.

Lemma IsDir_file name perm mt :
  IsDir (mkFileInfo name (N.land perm ModePerm) mt) = false.
Proof.
  unfold IsDir; cbn [fi_Mode]. rewrite <- N.land_assoc.
  change (N.land ModePerm ModeDir) with 0%N. by rewrite N.land_0_r.
Qed.

Lemma IsDir_link name mt :
  IsDir (mkFileInfo name (N.lor ModeSymlink ModePerm) mt) = false.
Proof. reflexivity. Qed.

Lemma IsRegular_file name perm mt :
  IsRegular (mkFileInfo name (N.land perm ModePerm) mt) = true.
Proof.
  unfold IsRegular; cbn [fi_Mode]. rewrite <- N.land_assoc.
  change (N.land ModePerm ModeType) with 0%N. by rewrite N.land_0_r.
Qed.

Section Walk.
Variables (env : Env) (indirname : path) (p : string) (d : gmap string Container).

Lemma adds_ret : adds env indirname p d (mret tt) [] true.
Proof.
  intros c. exists [], (Ok tt). rewrite add_entries_nil.
  repeat split; constructor.
Qed.

Lemma adds_seq m1 m2 srcs1 srcs2 b1 b2 :
  adds env indirname p d m1 srcs1 b1 →
  adds env indirname p d m2 srcs2 b2 →
  adds env indirname p d (m1 ;; m2) (srcs1 ++ srcs2) (b1 && b2).
Proof.
  intros H1 H2 c. destruct (H1 c) as (es1 & r1 & E1 & S1 & F1).
  unfold mbind, M_bind. rewrite E1.
  destruct r1 as [[]|e|].
  - destruct (H2 (add_entries c es1)) as (es2 & r2 & E2 & S2 & F2).
    exists (es1 ++ es2), r2. rewrite E2, add_entries_app.
    split; [done|]. rewrite !fmap_app. split.
    + by apply sublist_app.
    + intros Hr [Hb1 Hb2]%andb_true_iff. apply Forall2_app; auto.
  - exists es1, (Err e). split; [done|]. rewrite !fmap_app. split; [|done].
    by apply sublist_inserts_r.
  - exists es1, Panic. split; [done|]. rewrite !fmap_app. split; [|done].
    by apply sublist_inserts_r.
Qed.

Lemma adds_nothing m srcs b :
  (∀ s, m s = (s, Ok tt)) → (b = true → srcs = []) → adds env indirname p d m srcs b.
Proof.
  intros Hm Hb c. exists [], (Ok tt). rewrite Hm, add_entries_nil.
  split; [done|]. split; [apply sublist_nil_l|].
  intros _ ->%Hb. constructor.
Qed.

Lemma adds_panic m srcs b :
  (∀ s, m s = (s, Panic)) → adds env indirname p d m srcs b.
Proof.
  intros Hm c. exists [], Panic. rewrite Hm, add_entries_nil.
  split; [done|]. split; [apply sublist_nil_l|done].
Qed.

Lemma walkFn_nil q err s :
  ArchiveDir_walkFn env indirname q None err s = (s, Panic).
Proof. reflexivity. Qed.

Lemma walkFn_dir q fi err s :
  IsDir fi = true → ArchiveDir_walkFn env indirname q (Some fi) err s = (s, Ok tt).
Proof. intros H. unfold ArchiveDir_walkFn. run_monad. by rewrite H. Qed.

Lemma adds_walkFn_object q fi b :
  IsDir fi = false →
  adds env indirname p d (ArchiveDir_walkFn env indirname q (Some fi) None) [(q, fi)] b.
Proof.
  intros H c. unfold ArchiveDir_walkFn, filepath_Rel, zip_FileInfoHeader.
  run_monad. rewrite H.
  destruct (Rel_fails env indirname q); run_monad.
  { eexists [], _. rewrite add_entries_nil. split; [done|]. split; [apply sublist_nil_l|done]. }
  destruct (FileInfoHeader_fails env fi); run_monad.
  { eexists [], _. rewrite add_entries_nil. split; [done|]. split; [apply sublist_nil_l|done]. }
  unfold set_Method, set_Name; cbn [Name Method Modified Mode].
  rewrite CreateHeader_run.
  destruct (CreateHeader_fails env (entries c) _).
  { eexists [], _. rewrite add_entries_nil. split; [done|]. split; [apply sublist_nil_l|done]. }
  destruct (ioutil_ReadFile env q) as [e|content] eqn:Hread.
  { eexists [_], _. split; [done|]. split; [done|done]. }
  rewrite Write_run. cbn [app].
  destruct (Write_fails env _ content).
  { eexists [_], _. split; [done|]. split; [done|done]. }
  eexists [_], _. split; [done|]. split; [done|].
  intros _ _. constructor; [|constructor]. by split.
Qed.

Lemma adds_walk n :
  ∀ q, adds env indirname p d (walk (ArchiveDir_walkFn env indirname) q n)
         (objects q n) (listable n).
Proof.
  induction n as [perm mt content|mt t _|perm mt listing cs IH|e] using node_ind2;
    intros q; cbn [walk objects listable].
  - apply adds_walkFn_object, IsDir_file.
  - apply adds_walkFn_object, IsDir_link.
  - destruct listing as [e|].
    + apply adds_nothing; [|done]. intros s. apply walkFn_dir, IsDir_dir.
    + change (cs ≫= _) with ([] ++ (cs ≫= (λ nc, objects (q ++ [nc.1]) nc.2))).
      change (forallb _ cs) with (true && forallb (λ nc, listable nc.2) cs).
      apply adds_seq.
      { apply adds_nothing; [|done]. intros s. apply walkFn_dir, IsDir_dir. }
      induction cs as [|[name c] cs IHcs]; cbn [for_each forallb].
      { apply adds_ret. }
      apply Forall_cons in IH as [IHc IH].
      change (((name, c) :: cs) ≫= _)
        with (objects (q ++ [name]) c ++ (cs ≫= (λ nc, objects (q ++ [nc.1]) nc.2))).
      apply adds_seq; [apply IHc|by apply IHcs].
  - apply adds_panic. intros s. apply walkFn_nil.
Qed.

End Walk.

Lemma ArchiveDir_spec env indirname a d fi :
  assertValidDir env indirname = inr fi →
  Create_fails env (filepath a) = None →
  let root := resolve (fs env) indirname in
  ∃ es r,
    run (ArchiveDir env indirname) a d =
      (closed (filepath a) d (after_close env (add_entries truncated es)), r) ∧
    entry_name <$> es `sublist_of` (relname indirname <$> (objects indirname root).*1) ∧
    (r = Ok tt → listable root = true →
     Forall2 (entry_of_object env indirname) es (objects indirname root)).
Proof.
  intros Hv Hc root. rewrite ArchiveDir_run, Hv, Hc. unfold filepath_Walk.
  destruct (adds_walk env indirname (filepath a) d (resolve (fs env) indirname)
              indirname truncated) as (es & r & E & Hsub & Hall).
  rewrite E, close_run. by exists es, r.
Qed.

(** No object is a directory, and a directory without children holds none. *)
Lemma objects_not_dir n : ∀ p, Forall (λ x, IsDir x.2 = false) (objects p n).
Proof.
  induction n as [perm mt content|mt t _|perm mt l cs IH|e] using node_ind2;
    intros p; cbn [objects].
  - repeat constructor. apply IsDir_file.
  - repeat constructor.
  - apply Forall_bind, Forall_forall. intros [name c] Hin.
    rewrite Forall_forall in IH. apply (IH _ Hin).
  - constructor.
Qed.

Lemma objects_empty_dir p perm mt l : objects p (Dir perm mt l []) = [].
Proof. reflexivity. Qed.

(** A successful [ArchiveDir] over a tree that can be listed throughout. *)
Lemma ArchiveDir_success env a d indirname s' :
  listable (resolve (fs env) indirname) = true →
  run (ArchiveDir env indirname) a d = (s', Ok tt) →
  ∃ c, disk s' !! filepath a = Some c ∧
       Forall2 (entry_of_object env indirname) (entries c)
         (objects indirname (resolve (fs env) indirname)).
Proof.
  intros Hl Hrun.
  destruct (assertValidDir env indirname) as [e|fi] eqn:Hv.
  { by rewrite ArchiveDir_run, Hv in Hrun. }
  destruct (Create_fails env (filepath a)) as [e|] eqn:Hc.
  { by rewrite ArchiveDir_run, Hv, Hc in Hrun. }
  destruct (ArchiveDir_spec env indirname a d fi Hv Hc) as (es & r & E & _ & Hall).
  rewrite E in Hrun. injection Hrun as <- ->.
  eexists. cbn [disk]. rewrite lookup_insert_eq. split; [done|]. by apply Hall.
Qed.

(** ** Names of entries are distinct *)

Lemma append_nil s : "" +:+ s = s.
Proof. reflexivity. Qed.

Lemma append_cons ch s1 s2 : String ch s1 +:+ s2 = String ch (s1 +:+ s2).
Proof. reflexivity. Qed.

Lemma has_separator_app s1 s2 :
  has_separator (s1 +:+ s2) = has_separator s1 || has_separator s2.
Proof.
  induction s1 as [|ch s1 IH]; [done|].
  rewrite append_cons. cbn [has_separator].
  by destruct (Ascii.eqb ch "/").
Qed.

Lemma separator_splits x y s t :
  has_separator x = false → has_separator y = false →
  x +:+ "/" +:+ s = y +:+ "/" +:+ t → x = y ∧ s = t.
Proof.
  revert y. induction x as [|ch x IH]; intros [|ch' y];
    unfold String.append; fold String.append; cbn [has_separator].
  - intros _ _ [= ->]. done.
  - intros _ Hy [= <- _]. done.
  - intros Hx _ [= -> _]. done.
  - intros Hx Hy [= <- Heq].
    destruct (Ascii.eqb ch "/"); [done|].
    destruct (IH y Hx Hy Heq) as [-> ->]. done.
Qed.

Lemma concat_cons_cons sep x y l :
  String.concat sep (x :: y :: l) = x +:+ sep +:+ String.concat sep (y :: l).
Proof. reflexivity. Qed.

Lemma concat_separator_inj l1 l2 :
  l1 ≠ [] → l2 ≠ [] →
  Forall (λ x, has_separator x = false) l1 →
  Forall (λ x, has_separator x = false) l2 →
  String.concat "/" l1 = String.concat "/" l2 → l1 = l2.
Proof.
  revert l2. induction l1 as [|x [|x' l1] IH]; intros [|y [|y' l2]] Hn1 Hn2 H1 H2;
    try done.
  - cbn. by intros ->.
  - rewrite concat_cons_cons. cbn [String.concat]. intros ->.
    apply Forall_cons in H1 as [H1 _].
    rewrite has_separator_app in H1. cbn in H1. by rewrite orb_true_r in H1.
  - rewrite concat_cons_cons. cbn [String.concat]. intros <-.
    apply Forall_cons in H2 as [H2 _].
    rewrite has_separator_app in H2. cbn in H2. by rewrite orb_true_r in H2.
  - rewrite !concat_cons_cons. intros Heq.
    apply Forall_cons in H1 as [Hx H1]. apply Forall_cons in H2 as [Hy H2].
    destruct (separator_splits _ _ _ _ Hx Hy Heq) as [-> Heq'].
    f_equal. by apply IH.
Qed.

Lemma rel_components_app base q : rel_components base (base ++ q) = q.
Proof.
  induction base as [|b base IH]; cbn; [by destruct q|].
  by rewrite decide_True.
Qed.

Lemma objects_paths q n : (objects q n).*1 = (q ++.) <$> relative_paths n.
Proof.
  revert q. induction n as [| |perm mt l cs IH|] using node_ind2; intros q;
    cbn [objects relative_paths]; rewrite ?fmap_cons, ?app_nil_r; try done.
  induction cs as [|[name c] cs IHcs]; [done|].
  apply Forall_cons in IH as [IHc IH].
  rewrite !bind_cons, !fmap_app, IHcs by done. f_equal.
  cbn [fst snd]. rewrite IHc, <- list_fmap_compose.
  apply list_fmap_ext. intros _ r _. cbn. by rewrite <- app_assoc.
Qed.

Lemma relnames_objects indirname n :
  relname indirname <$> (objects indirname n).*1 = join_components <$> relative_paths n.
Proof.
  rewrite objects_paths, <- list_fmap_compose. apply list_fmap_ext.
  intros _ r _. unfold relname; cbn. by rewrite rel_components_app.
Qed.

Lemma relative_paths_well_formed n :
  well_formed n = true →
  NoDup (relative_paths n) ∧
  Forall (Forall (λ x, has_separator x = false)) (relative_paths n).
Proof.
  induction n as [| |perm mt l cs IH|] using node_ind2; cbn [well_formed relative_paths].
  - intros _. split; [apply NoDup_singleton|by repeat constructor].
  - intros _. split; [apply NoDup_singleton|by repeat constructor].
  - intros [Hnd Hcs]%andb_true_iff. apply bool_decide_eq_true in Hnd.
    induction cs as [|[name c] cs IHcs]; [split; constructor|].
    apply Forall_cons in IH as [IHc IH].
    cbn [forallb fst snd] in Hcs.
    apply andb_true_iff in Hcs as [[Hname Hc]%andb_true_iff Hcs].
    apply negb_true_iff in Hname.
    rewrite fmap_cons in Hnd. apply NoDup_cons in Hnd as [Hfresh Hnd].
    destruct (IHc Hc) as [Hc1 Hc2]. destruct (IHcs IH Hnd Hcs) as [Hcs1 Hcs2].
    rewrite bind_cons. cbn [fst snd]. split.
    + apply NoDup_app. split; [|split; [|done]].
      * apply NoDup_fmap_2; [|done]. by intros ?? [=].
      * intros r [r' [-> _]]%list_elem_of_fmap [[name' c'] [Hr Hin]]%list_elem_of_bind.
        apply list_elem_of_fmap in Hr as [r'' [[= <- _] _]].
        apply Hfresh. apply list_elem_of_fmap. by exists (name, c').
    + apply Forall_app. split; [|done].
      apply Forall_fmap. eapply Forall_impl; [exact Hc2|].
      intros r Hr. by constructor.
  - intros _. split; constructor.
Qed.

Lemma relnames_NoDup indirname n :
  well_formed n = true → NoDup (relname indirname <$> (objects indirname n).*1).
Proof.
  intros Hwf. rewrite relnames_objects.
  destruct (relative_paths_well_formed n Hwf) as [Hnd Hsep].
  destruct n as [| |perm mt l cs|]; cbn [relative_paths] in *;
    try apply NoDup_singleton; try apply NoDup_nil_2.
  apply NoDup_fmap_2_strong; [|done].
  intros r1 r2 Hr1 Hr2.
  assert (Hne : ∀ r, r ∈ cs ≫= (λ nc, (nc.1 ::.) <$> relative_paths nc.2) → r ≠ []).
  { intros r [nc [[r' [-> _]]%list_elem_of_fmap _]]%list_elem_of_bind. done. }
  pose proof (Hne _ Hr1) as Hn1. pose proof (Hne _ Hr2) as Hn2.
  rewrite Forall_forall in Hsep.
  destruct r1 as [|x1 r1]; [done|]. destruct r2 as [|x2 r2]; [done|].
  cbn [join_components]. apply concat_separator_inj; auto.
Qed.

Lemma well_formed_follow n : well_formed n = true → well_formed (follow n) = true.
Proof. induction n using node_ind2; cbn [follow well_formed]; auto. Qed.

Lemma well_formed_child name cs c :
  forallb (λ nc, negb (has_separator nc.1) && well_formed nc.2) cs = true →
  lookup_child name cs = Some c → well_formed c = true.
Proof.
  induction cs as [|[k c'] cs IH]; cbn [forallb lookup_child fst snd]; [done|].
  intros [[_ Hc]%andb_true_iff Hcs]%andb_true_iff.
  destruct (decide (k = name)); [by intros [= <-]|by apply IH].
Qed.

Lemma well_formed_resolve p : ∀ n,
  well_formed n = true → well_formed (resolve n p) = true.
Proof.
  induction p as [|name p IH]; intros n Hn; cbn [resolve]; [done|].
  apply well_formed_follow in Hn.
  destruct (follow n) as [| |perm mt l cs|]; try done.
  cbn [well_formed] in Hn. apply andb_true_iff in Hn as [_ Hcs].
  destruct (lookup_child name cs) as [c|] eqn:Hc; [|done].
  apply IH. by eapply well_formed_child.
Qed.

(** ** The walk and the paths agree *)

Lemma lookup_child_NoDup name c cs :
  NoDup cs.*1 → (name, c) ∈ cs → lookup_child name cs = Some c.
Proof.
  induction cs as [|[k c'] cs IH]; cbn [lookup_child]; [by intros _ ?%elem_of_nil|].
  rewrite fmap_cons. cbn [fst]. intros [Hfresh Hnd]%NoDup_cons Hin.
  apply elem_of_cons in Hin as [[= <- <-]|Hin].
  - by rewrite decide_True.
  - rewrite decide_False; [by apply IH|].
    intros ->. apply Hfresh. apply list_elem_of_fmap. by exists (name, c).
Qed.

Lemma resolve_child name c p : ∀ n perm mt l cs,
  resolve n p = Dir perm mt l cs →
  lookup_child name cs = Some c →
  resolve n (p ++ [name]) = c.
Proof.
  induction p as [|x p IH]; intros n perm mt l cs Hp Hc; cbn [resolve app] in *.
  - subst n. cbn [follow]. by rewrite Hc.
  - destruct (follow n) as [| |perm' mt' l' cs'|]; try done.
    destruct (lookup_child x cs') as [c'|]; [|done]. by eapply IH.
Qed.

(** In a well-formed tree, what the walk reports for a path is what
    [os.Lstat] gives for it. *)
Lemma objects_Lstat env n : ∀ p,
  well_formed n = true →
  resolve (fs env) p = n →
  Forall (λ x, os_Lstat env x.1 = inr x.2) (objects p n).
Proof.
  induction n as [perm mt content|mt t _|perm mt l cs IH|e] using node_ind2;
    intros p Hwf Hp; cbn [objects].
  - repeat constructor. unfold os_Lstat. cbn [fst snd]. by rewrite Hp.
  - repeat constructor. unfold os_Lstat. cbn [fst snd]. by rewrite Hp.
  - cbn [well_formed] in Hwf. apply andb_true_iff in Hwf as [Hnd Hcs].
    apply bool_decide_eq_true in Hnd.
    apply Forall_bind, Forall_forall. intros [name c] Hin.
    rewrite Forall_forall in IH. cbn [compose fst snd].
    apply (IH _ Hin).
    + rewrite forallb_forall in Hcs.
      apply list_elem_of_In, Hcs in Hin. by apply andb_true_iff in Hin as [_ ?].
    + eapply resolve_child; [exact Hp|]. by apply lookup_child_NoDup.
  - constructor.
Qed.

(** ** [ArchiveMultiple] *)

Lemma collect_keys_run range : ∀ collected s,
  collect_keys range (collected ++ replicate (length range) "") (length collected) s =
  (s, Ok (collected ++ range)).
Proof.
  induction range as [|k range IH]; intros collected s; cbn [collect_keys length replicate].
  { by rewrite !app_nil_r. }
  rewrite decide_True by (rewrite length_app; cbn; lia).
  replace (length collected) with (length collected + 0) at 1 by lia.
  rewrite insert_app_r. cbn [insert list_insert].
  replace (S (length collected)) with (length (collected ++ [k]))
    by (rewrite length_app; cbn; lia).
  rewrite (cons_middle k collected), app_assoc, IH.
  by rewrite <- app_assoc.
Qed.

Lemma range_of_length range content : range_of range content → length range = size content.
Proof.
  intros H. rewrite (Permutation_length H), length_fmap. apply length_map_to_list.
Qed.

Lemma sort_Strings_unique range1 range2 :
  range1 ≡ₚ range2 → sort_Strings range1 = sort_Strings range2.
Proof.
  intros H. unfold sort_Strings. apply (Sorted_unique String.le).
  - apply Sorted_merge_sort, _.
  - apply Sorted_merge_sort, _.
  - by rewrite !merge_sort_Permutation.
Qed.

Lemma strictly_sorted l :
  StronglySorted String.le l → NoDup l → StronglySorted string_lt l.
Proof.
  induction 1 as [|x l Hl IH Hx]; intros Hnd; constructor.
  - apply IH. by apply NoDup_cons in Hnd as [_ ?].
  - apply NoDup_cons in Hnd as [Hfresh _].
    rewrite Forall_forall in Hx |- *. intros y Hy. split; [by apply Hx|].
    by intros ->.
Qed.

Lemma sort_Strings_strict range content :
  range_of range content → StronglySorted string_lt (sort_Strings range).
Proof.
  intros H. apply strictly_sorted.
  - apply StronglySorted_merge_sort; apply _.
  - unfold sort_Strings. rewrite merge_sort_Permutation, H.
    apply NoDup_fst_map_to_list.
Qed.

Lemma write_each_spec env content p d keys : ∀ c,
  ∃ es r,
    write_each env content keys (writing p d c) = (writing p d (add_entries c es), r) ∧
    entry_name <$> es `prefix_of` keys ∧
    (r = Ok tt →
     es = entry_of_key content <$> keys).
Proof.
  induction keys as [|k keys IH]; intros c; cbn [write_each].
  { exists [], (Ok tt). by rewrite add_entries_nil. }
  unfold zip_Writer_Create. run_monad. rewrite CreateHeader_run.
  destruct (CreateHeader_fails env (entries c) _).
  { eexists [], _. rewrite add_entries_nil. split; [done|]. split; [apply prefix_nil|done]. }
  rewrite Write_run. cbn [app].
  destruct (Write_fails env _ _).
  { eexists [_], _. split; [done|]. split; [|done]. apply prefix_cons, prefix_nil. }
  destruct (IH (add_entries c [entry_of_key content k]))
    as (es & r & E & Hpre & Hok).
  unfold entry_of_key in E.
  eexists (_ :: es), r. rewrite E, add_entries_app. split; [done|]. split.
  - rewrite fmap_cons. by apply prefix_cons.
  - intros Hr. rewrite fmap_cons. f_equal. by apply Hok.
Qed.

Lemma ArchiveMultiple_run env range content a d :
  range_of range content →
  run (ArchiveMultiple env range content) a d =
  match Create_fails env (filepath a) with
  | Some e => (mkState a d, Err e)
  | None =>
      let '(s1, r) :=
        write_each env content (sort_Strings range) (writing (filepath a) d truncated) in
      ((close env s1).1, r)
  end.
Proof.
  intros Hrange. unfold run, ArchiveMultiple. unfold mbind at 1, M_bind at 1.
  rewrite open_run. destruct (Create_fails env (filepath a)); [done|].
  unfold defer. unfold mbind at 1, M_bind at 1.
  rewrite <- (range_of_length _ _ Hrange).
  by rewrite (collect_keys_run range []).
Qed.

Lemma ArchiveMultiple_spec env range content a d :
  range_of range content →
  Create_fails env (filepath a) = None →
  ∃ es r,
    run (ArchiveMultiple env range content) a d =
      (closed (filepath a) d (after_close env (add_entries truncated es)), r) ∧
    entry_name <$> es `prefix_of` sort_Strings range ∧
    (r = Ok tt →
     es = entry_of_key content <$> sort_Strings range).
Proof.
  intros Hrange Hc. rewrite ArchiveMultiple_run, Hc by done.
  destruct (write_each_spec env content (filepath a) d (sort_Strings range) truncated)
    as (es & r & E & Hpre & Hok).
  rewrite E, close_run. by exists es, r.
Qed.

Lemma range_of_two_files range :
  range_of range two_files → sort_Strings range = ["a.txt"; "b.txt"].
Proof.
  intros H. rewrite (sort_Strings_unique range ["a.txt"; "b.txt"]); [done|].
  rewrite H. by vm_compute.
Qed.

(** ** The operations on small inputs *)

(** Byte-wise order: upper case sorts before lower case. *)
Example sort_Strings_bytewise :
  sort_Strings ["b.txt"; "a.txt"; "B.txt"] = ["B.txt"; "a.txt"; "b.txt"].
Proof. reflexivity. Qed.

Example ArchiveDir_plain_tree :
  let out := run (ArchiveDir (no_failures tree_plain) ["src"]) (newZipArchiver "out.zip") ∅ in
  out.2 = Ok tt ∧
  listing_at "out.zip" out.1 = [("sub/x.txt", text "x"); ("y.txt", text "y")] ∧
  finalized <$> disk out.1 !! "out.zip" = Some true.
Proof. by vm_compute. Qed.

(** A failing read ends the walk with the wrapped error; the entry of the
    file was created before the read and stays, empty. *)
Example ArchiveDir_unreadable_file :
  let out := run (ArchiveDir (no_failures tree_with_unreadable) ["src"])
                 (newZipArchiver "out.zip") ∅ in
  out.2 = Err "error reading file for archival: open src/y.txt: permission denied" ∧
  listing_at "out.zip" out.1 = [("y.txt", [])] ∧
  this out.1 = newZipArchiver "out.zip".
Proof. by vm_compute. Qed.

(** A failing [Close] of the writer goes unreported: the call returns nil, the
    entry has been handed to the writer, and the container is left without
    its central directory. *)
Example ArchiveContent_silent_close_failure :
  let env := with_close (no_failures tree_plain) (λ _, Some "write out.zip: no space left")
               (λ _, None) in
  let out := run (ArchiveContent env (text "1") "one") (newZipArchiver "out.zip") ∅ in
  out.2 = Ok tt ∧
  listing_at "out.zip" out.1 = [("one", text "1")] ∧
  finalized <$> disk out.1 !! "out.zip" = Some false.
Proof. by vm_compute. Qed.

(** A second run truncates what the first one wrote. *)
Example ArchiveContent_overwrites :
  let a := newZipArchiver "out.zip" in
  let env := no_failures tree_plain in
  let first := run (ArchiveContent env (text "1") "one") a ∅ in
  let second := run (ArchiveContent env (text "2") "two") (this first.1) (disk first.1) in
  listing_at "out.zip" second.1 = [("two", text "2")].
Proof. by vm_compute. Qed.

(** * The claims *)

(** C1. [ArchiveMultiple] creates its entries in strictly ascending byte-wise
    order of their names: once the target is open, whatever the call leaves in
    the container, also when it stops at a failure, is strictly ascending by
    name, and when it returns nil the names are the keys of the mapping and
    each entry holds the content of its key.  For the mapping of ["b.txt"] to
    "2" and ["a.txt"] to "1", in whichever order the keys come, the container
    holds ["a.txt"] with "1" and then ["b.txt"] with "2". *)
Theorem ArchiveMultiple_ascending :
  (∀ env a d range content,
     range_of range content →
     Create_fails env (filepath a) = None →
     let out := run (ArchiveMultiple env range content) a d in
     ∃ c, disk out.1 !! filepath a = Some c ∧
          StronglySorted string_lt (entry_name <$> entries c) ∧
          (out.2 = Ok tt →
           entry_name <$> entries c ≡ₚ (map_to_list content).*1 ∧
           Forall (λ e, content !! entry_name e = Some (data e)) (entries c))) ∧
  (∀ range,
     range_of range two_files →
     let out := run (ArchiveMultiple (no_failures tree_plain) range two_files)
                    (newZipArchiver "out.zip") ∅ in
     out.2 = Ok tt ∧
     listing_at "out.zip" out.1 = [("a.txt", text "1"); ("b.txt", text "2")]).
Proof.
  split.
  - intros env a d range content Hrange Hc out. subst out.
    destruct (ArchiveMultiple_spec env range content a d Hrange Hc)
      as (es & r & -> & Hpre & Hok).
    cbn [fst snd disk]. eexists. rewrite lookup_insert_eq. split; [done|].
    cbn [entries after_close add_entries truncated app]. split.
    + destruct Hpre as [rest Hrest].
      pose proof (sort_Strings_strict range content Hrange) as Hs.
      rewrite Hrest in Hs. by apply StronglySorted_app in Hs as (_ & ? & _).
    + intros ->%Hok.
      assert (Hnames : entry_name <$> (entry_of_key content <$> sort_Strings range)
                       = sort_Strings range).
      { rewrite <- list_fmap_compose. apply list_fmap_id. }
      split.
      * rewrite Hnames. unfold sort_Strings. by rewrite merge_sort_Permutation.
      * apply Forall_fmap, Forall_forall. intros k Hk.
        assert (Hin : k ∈ (map_to_list content).*1).
        { rewrite <- Hrange. unfold sort_Strings in Hk.
          by rewrite merge_sort_Permutation in Hk. }
        apply list_elem_of_fmap in Hin as [[k' v] [-> Hin]].
        apply elem_of_map_to_list in Hin.
        unfold compose, entry_of_key, entry_name.
        simpl. by rewrite Hin.
  - intros range Hrange out. subst out.
    rewrite ArchiveMultiple_run by done.
    rewrite (range_of_two_files range Hrange). by vm_compute.
Qed.

Lemma ArchiveMultiple_ascending_witness :
  let env := no_failures tree_plain in
  let a := newZipArchiver "out.zip" in
  let out := run (ArchiveMultiple env ["b.txt"; "a.txt"] two_files) a ∅ in
  range_of ["b.txt"; "a.txt"] two_files ∧
  Create_fails env (filepath a) = None ∧
  (∃ c, disk out.1 !! filepath a = Some c ∧
        StronglySorted string_lt (entry_name <$> entries c) ∧
        (out.2 = Ok tt →
         entry_name <$> entries c ≡ₚ (map_to_list two_files).*1 ∧
         Forall (λ e, two_files !! entry_name e = Some (data e)) (entries c))) ∧
  out.2 = Ok tt ∧
  listing_at "out.zip" out.1 = [("a.txt", text "1"); ("b.txt", text "2")].
Proof.
  intros env a out.
  assert (H : range_of ["b.txt"; "a.txt"] two_files).
  { unfold range_of. vm_compute. apply perm_swap. }
  split; [exact H|]. split; [reflexivity|]. split.
  - exact (proj1 ArchiveMultiple_ascending env a ∅ ["b.txt"; "a.txt"] two_files H eq_refl).
  - exact (proj2 ArchiveMultiple_ascending ["b.txt"; "a.txt"] H).
Defined.

(** C2. Two runs of [ArchiveMultiple] on the same mapping give the same
    outcome and leave the same container, entry for entry, in whichever order
    the keys of the mapping come. *)
Theorem ArchiveMultiple_deterministic env a d range1 range2 content :
  range_of range1 content →
  range_of range2 content →
  run (ArchiveMultiple env range1 content) a d =
  run (ArchiveMultiple env range2 content) a d.
Proof.
  intros H1 H2. rewrite !ArchiveMultiple_run by done.
  rewrite (sort_Strings_unique range1 range2); [done|].
  unfold range_of in *. by rewrite H1, H2.
Qed.

Lemma ArchiveMultiple_deterministic_witness :
  range_of ["b.txt"; "a.txt"] two_files ∧
  range_of ["a.txt"; "b.txt"] two_files ∧
  run (ArchiveMultiple (no_failures tree_plain) ["b.txt"; "a.txt"] two_files)
      (newZipArchiver "out.zip") ∅ =
  run (ArchiveMultiple (no_failures tree_plain) ["a.txt"; "b.txt"] two_files)
      (newZipArchiver "out.zip") ∅.
Proof.
  assert (H1 : range_of ["b.txt"; "a.txt"] two_files).
  { unfold range_of. vm_compute. apply perm_swap. }
  assert (H2 : range_of ["a.txt"; "b.txt"] two_files).
  { unfold range_of. vm_compute. reflexivity. }
  split; [exact H1|]. split; [exact H2|].
  exact (ArchiveMultiple_deterministic _ _ _ _ _ _ H1 H2).
Defined.





(** C7. For every path that does not resolve to an existing regular file
    (absent, a directory, or a failing stat), [ArchiveFile] returns an error
    of the validation and leaves the archiver and the disk as they were: the
    target is neither created nor truncated.  Likewise [ArchiveDir] for every
    root that does not resolve to an existing directory. *)
Theorem invalid_path_rejected_before_open env a d infilename indirname :
  ¬ (∃ fi, os_Stat env infilename = inr fi ∧ IsRegular fi = true) →
  ¬ (∃ fi, os_Stat env indirname = inr fi ∧ IsDir fi = true) →
  (∃ e, assertValidFile env infilename = inl e ∧
        run (ArchiveFile env infilename) a d = (mkState a d, Err e)) ∧
  (∃ e, assertValidDir env indirname = inl e ∧
        run (ArchiveDir env indirname) a d = (mkState a d, Err e)).
Proof.
  intros Hfile Hdir. split.
  - rewrite ArchiveFile_run. unfold assertValidFile.
    destruct (os_Stat env infilename) as [e|fi] eqn:Hstat; [by eexists|].
    destruct (IsRegular fi) eqn:Hreg; [|by eexists].
    destruct Hfile. by exists fi.
  - rewrite ArchiveDir_run. unfold assertValidDir.
    destruct (os_Stat env indirname) as [e|fi] eqn:Hstat; [by eexists|].
    destruct (IsDir fi) eqn:His; [|by eexists].
    destruct Hdir. by exists fi.
Qed.

Lemma invalid_path_rejected_before_open_witness :
  let env := no_failures tree_plain in
  let a := newZipArchiver "out.zip" in
  ¬ (∃ fi, os_Stat env ["src"; "sub"] = inr fi ∧ IsRegular fi = true) ∧
  ¬ (∃ fi, os_Stat env ["src"; "y.txt"] = inr fi ∧ IsDir fi = true) ∧
  (∃ e, assertValidFile env ["src"; "sub"] = inl e ∧
        run (ArchiveFile env ["src"; "sub"]) a ∅ = (mkState a ∅, Err e)) ∧
  (∃ e, assertValidDir env ["src"; "y.txt"] = inl e ∧
        run (ArchiveDir env ["src"; "y.txt"]) a ∅ = (mkState a ∅, Err e)).
Proof.
  intros env a.
  assert (H1 : ¬ (∃ fi, os_Stat env ["src"; "sub"] = inr fi ∧ IsRegular fi = true)).
  { intros (fi & [= <-] & Hreg). discriminate Hreg. }
  assert (H2 : ¬ (∃ fi, os_Stat env ["src"; "y.txt"] = inr fi ∧ IsDir fi = true)).
  { intros (fi & [= <-] & His). discriminate His. }
  split; [exact H1|]. split; [exact H2|].
  exact (invalid_path_rejected_before_open env a ∅ ["src"; "sub"] ["src"; "y.txt"] H1 H2).
Defined.

(** Whatever the tree, a root that cannot be listed makes [ArchiveDir] return
    nil over an empty container: the error of the listing is dropped. *)
Lemma unlistable_root_is_success env a d indirname fi perm mt e cs :
  resolve (fs env) indirname = Dir perm mt (Some e) cs →
  assertValidDir env indirname = inr fi →
  Create_fails env (filepath a) = None →
  run (ArchiveDir env indirname) a d =
    (closed (filepath a) d (after_close env truncated), Ok tt).
Proof.
  intros Hroot Hv Hc. rewrite ArchiveDir_run, Hv, Hc.
  unfold filepath_Walk. rewrite Hroot. cbn [walk].
  rewrite walkFn_dir by apply IsDir_dir. by rewrite close_run.
Qed.

(** C3. What [ArchiveDir] does with the errors of the walk.  A directory
    that cannot be listed is reported to the function with its [FileInfo] and
    the error; the function returns nil at [info.IsDir()] before it looks at
    the error, the call returns nil and the container lacks what is below
    that directory.  A name whose [lstat] fails is reported with a nil
    [FileInfo], and the function panics at [info.IsDir()]. *)
Theorem ArchiveDir_drops_walk_errors :
  let a := newZipArchiver "out.zip" in
  let locked := run (ArchiveDir (no_failures tree_with_locked_dir) ["src"]) a ∅ in
  let gone := run (ArchiveDir (no_failures tree_with_unstatable) ["src"]) a ∅ in
  locked.2 = Ok tt ∧
  listing_at "out.zip" locked.1 = [("y.txt", text "y")] ∧
  gone.2 = Panic.
Proof. by vm_compute. Qed.


(** The same claim fails where a directory cannot be listed: the call returns
    nil and the regular file below that directory has no entry. *)
Lemma locked_directory_is_skipped :
  ¬ one_entry_per_regular_file (no_failures tree_with_locked_dir)
      (newZipArchiver "out.zip") ∅ ["src"].
Proof.
  intros H.
  destruct (H (run (ArchiveDir (no_failures tree_with_locked_dir) ["src"])
                   (newZipArchiver "out.zip") ∅).1)
    as (c & sources & Hc & Hperm & Hall).
  { by vm_compute. }
  apply Forall2_length in Hall. apply Permutation_length in Hperm.
  vm_compute in Hc. injection Hc as <-.
  rewrite <- Hall in Hperm. vm_compute in Hperm. discriminate.
Qed.



(** Where moreover every object below the root is a regular file, the entries
    are those of the regular files, as C6 has it. *)
Lemma ArchiveDir_of_regular_files env a d indirname :
  listable (resolve (fs env) indirname) = true →
  Forall (λ x, IsRegular x.2 = true) (objects indirname (resolve (fs env) indirname)) →
  one_entry_per_regular_file env a d indirname.
Proof.
  intros Hl Hreg s' Hrun.
  unfold regular_files.
  replace (filter _ (objects indirname (resolve (fs env) indirname)))
    with (objects indirname (resolve (fs env) indirname)).
  - destruct (ArchiveDir_success env a d indirname s' Hl Hrun) as (c & Hc & Hall).
    by exists c, (objects indirname (resolve (fs env) indirname)).
  - induction Hreg as [|x l Hx Hreg IH]; [done|].
    rewrite filter_cons_True by done. by f_equal.
Qed.

(** C8. In each of the four operations, once the target is open the cleanup
    runs on every way out: whatever the outcome, the archiver is left without
    writer and without handle and the handle on the container is released.
    What the two [Close] calls report never reaches the caller: with any
    other failures of those two calls the operation returns the same. *)
Theorem close_always_runs_and_is_silent env a d wc fc :
  let env' := with_close env wc fc in
  (∀ content infilename,
     let out := run (ArchiveContent env content infilename) a d in
     (run (ArchiveContent env' content infilename) a d).2 = out.2 ∧
     (Create_fails env (filepath a) = None → cleaned_up a out.1)) ∧
  (∀ infilename,
     let out := run (ArchiveFile env infilename) a d in
     (run (ArchiveFile env' infilename) a d).2 = out.2 ∧
     (∀ fi content,
        assertValidFile env infilename = inr fi →
        ioutil_ReadFile env infilename = inr content →
        Create_fails env (filepath a) = None → cleaned_up a out.1)) ∧
  (∀ indirname,
     let out := run (ArchiveDir env indirname) a d in
     (run (ArchiveDir env' indirname) a d).2 = out.2 ∧
     (∀ fi,
        assertValidDir env indirname = inr fi →
        Create_fails env (filepath a) = None → cleaned_up a out.1)) ∧
  (∀ range content,
     range_of range content →
     let out := run (ArchiveMultiple env range content) a d in
     (run (ArchiveMultiple env' range content) a d).2 = out.2 ∧
     (Create_fails env (filepath a) = None → cleaned_up a out.1)).
Proof.
  intros env'. split; [|split; [|split]].
  all: intros; split.
  - subst out. rewrite !ArchiveContent_run. subst env'.
    cbn [with_close Create_fails CreateHeader_fails Write_fails].
    destruct (Create_fails env (filepath a)); [done|]. cbn zeta.
    destruct (CreateHeader_fails env [] _); [done|].
    by destruct (Write_fails env _ content).
  - intros Hc. subst out. rewrite ArchiveContent_run, Hc. cbn zeta.
    destruct (CreateHeader_fails env [] _); [by apply cleaned_up_closed|].
    destruct (Write_fails env _ content); by apply cleaned_up_closed.
  - subst out. rewrite !ArchiveFile_run. subst env'.
    change (assertValidFile (with_close env wc fc)) with (assertValidFile env).
    change (ioutil_ReadFile (with_close env wc fc)) with (ioutil_ReadFile env).
    cbn [with_close Create_fails CreateHeader_fails Write_fails FileInfoHeader_fails].
    destruct (assertValidFile env infilename) as [|fi]; [done|].
    destruct (ioutil_ReadFile env infilename) as [|content]; [done|].
    destruct (Create_fails env (filepath a)); [done|].
    destruct (FileInfoHeader_fails env fi); [done|]. cbn zeta.
    destruct (CreateHeader_fails env [] _); [done|].
    by destruct (Write_fails env _ content).
  - intros fi content Hv Hr Hc. subst out. rewrite ArchiveFile_run, Hv, Hr, Hc.
    destruct (FileInfoHeader_fails env fi); [by apply cleaned_up_closed|]. cbn zeta.
    destruct (CreateHeader_fails env [] _); [by apply cleaned_up_closed|].
    destruct (Write_fails env _ content); by apply cleaned_up_closed.
  - subst out. rewrite !ArchiveDir_run. subst env'.
    change (assertValidDir (with_close env wc fc)) with (assertValidDir env).
    change (filepath_Walk (with_close env wc fc) indirname
              (ArchiveDir_walkFn (with_close env wc fc) indirname))
      with (filepath_Walk env indirname (ArchiveDir_walkFn env indirname)).
    cbn [with_close Create_fails].
    destruct (assertValidDir env indirname); [done|].
    destruct (Create_fails env (filepath a)); [done|].
    by destruct (filepath_Walk env indirname _ _).
  - intros fi Hv Hc. subst out.
    destruct (ArchiveDir_spec env indirname a d fi Hv Hc) as (es & r & -> & _).
    by apply cleaned_up_closed.
  - subst out. rewrite !ArchiveMultiple_run by done. subst env'.
    change (write_each (with_close env wc fc)) with (write_each env).
    cbn [with_close Create_fails].
    destruct (Create_fails env (filepath a)); [done|].
    by destruct (write_each env content _ _).
  - intros Hc. subst out.
    destruct (ArchiveMultiple_spec env range content a d H Hc) as (es & r & -> & _).
    by apply cleaned_up_closed.
Qed.

Lemma close_always_runs_and_is_silent_witness :
  let env := no_failures tree_plain in
  let a := newZipArchiver "out.zip" in
  let failing :=
    with_close env (λ _, Some "write: no space left") (λ _, Some "close: i/o error") in
  range_of ["b.txt"; "a.txt"] two_files ∧
  Create_fails env (filepath a) = None ∧
  assertValidFile env ["src"; "y.txt"] = inr (mkFileInfo "y.txt" 420%N 4%Z) ∧
  ioutil_ReadFile env ["src"; "y.txt"] = inr (text "y") ∧
  assertValidDir env ["src"] = inr (mkFileInfo "src" (N.lor ModeDir 493) 1%Z) ∧
  ((run (ArchiveContent failing (text "1") "one") a ∅).2 =
     (run (ArchiveContent env (text "1") "one") a ∅).2 ∧
   cleaned_up a (run (ArchiveContent env (text "1") "one") a ∅).1) ∧
  ((run (ArchiveFile failing ["src"; "y.txt"]) a ∅).2 =
     (run (ArchiveFile env ["src"; "y.txt"]) a ∅).2 ∧
   cleaned_up a (run (ArchiveFile env ["src"; "y.txt"]) a ∅).1) ∧
  ((run (ArchiveDir failing ["src"]) a ∅).2 = (run (ArchiveDir env ["src"]) a ∅).2 ∧
   cleaned_up a (run (ArchiveDir env ["src"]) a ∅).1) ∧
  ((run (ArchiveMultiple failing ["b.txt"; "a.txt"] two_files) a ∅).2 =
     (run (ArchiveMultiple env ["b.txt"; "a.txt"] two_files) a ∅).2 ∧
   cleaned_up a (run (ArchiveMultiple env ["b.txt"; "a.txt"] two_files) a ∅).1).
Proof.
  intros env a failing.
  assert (H : range_of ["b.txt"; "a.txt"] two_files).
  { unfold range_of. vm_compute. apply perm_swap. }
  pose proof (close_always_runs_and_is_silent env a ∅
                (λ _, Some "write: no space left") (λ _, Some "close: i/o error"))
    as (Hcontent & Hfile & Hdir & Hmul).
  destruct (Hcontent (text "1") "one") as [Hc1 Hc2].
  destruct (Hfile ["src"; "y.txt"]) as [Hf1 Hf2].
  destruct (Hdir ["src"]) as [Hd1 Hd2].
  destruct (Hmul _ _ H) as [Hm1 Hm2].
  split; [exact H|]. repeat (split; [reflexivity|]).
  split; [exact (conj Hc1 (Hc2 eq_refl))|].
  split; [exact (conj Hf1 (Hf2 _ _ eq_refl eq_refl eq_refl))|].
  split; [exact (conj Hd1 (Hd2 _ eq_refl eq_refl))|].
  exact (conj Hm1 (Hm2 eq_refl)).
Defined.

(** C9. Within one call of any of the four operations the names of the
    entries that reach the container are pairwise distinct (for [ArchiveDir],
    in a tree where the names in a directory are distinct and hold no
    separator, as every filesystem has them). *)
Theorem entry_names_distinct env a d :
  (∀ content infilename,
     names_distinct a d (run (ArchiveContent env content infilename) a d)) ∧
  (∀ infilename, names_distinct a d (run (ArchiveFile env infilename) a d)) ∧
  (∀ indirname,
     well_formed (fs env) = true →
     names_distinct a d (run (ArchiveDir env indirname) a d)) ∧
  (∀ range content,
     range_of range content →
     names_distinct a d (run (ArchiveMultiple env range content) a d)).
Proof.
  assert (Hone : ∀ c, (∃ e, entries c = [e]) ∨ entries c = [] →
            ∃ c', disk (closed (filepath a) d (after_close env c)) !! filepath a = Some c' ∧
                  NoDup (entry_name <$> entries c')).
  { intros c Hc. eexists. cbn [disk]. rewrite lookup_insert_eq. split; [done|].
    cbn [entries after_close].
    destruct Hc as [[e ->]| ->]; [apply NoDup_singleton|apply NoDup_nil_2]. }
  repeat split.
  - intros content infilename. unfold names_distinct. rewrite ArchiveContent_run.
    destruct (Create_fails env (filepath a)); [by left|]. cbn zeta. right.
    destruct (CreateHeader_fails env [] _); [apply Hone; by right|].
    destruct (Write_fails env _ content); apply Hone; left; by eexists.
  - intros infilename. unfold names_distinct. rewrite ArchiveFile_run.
    destruct (assertValidFile env infilename) as [|fi]; [by left|].
    destruct (ioutil_ReadFile env infilename) as [|content]; [by left|].
    destruct (Create_fails env (filepath a)); [by left|]. right.
    destruct (FileInfoHeader_fails env fi); [apply Hone; by right|]. cbn zeta.
    destruct (CreateHeader_fails env [] _); [apply Hone; by right|].
    destruct (Write_fails env _ content); apply Hone; left; by eexists.
  - intros indirname Hwf. unfold names_distinct.
    destruct (assertValidDir env indirname) as [|fi] eqn:Hv.
    { rewrite ArchiveDir_run, Hv. by left. }
    destruct (Create_fails env (filepath a)) eqn:Hc.
    { rewrite ArchiveDir_run, Hv, Hc. by left. }
    destruct (ArchiveDir_spec env indirname a d fi Hv Hc) as (es & r & -> & Hsub & _).
    right. eexists. cbn [fst disk]. rewrite lookup_insert_eq. split; [done|].
    cbn [entries after_close add_entries truncated app].
    eapply sublist_NoDup; [|exact Hsub].
    by apply relnames_NoDup, well_formed_resolve.
  - intros range content Hrange. unfold names_distinct.
    destruct (Create_fails env (filepath a)) eqn:Hc.
    { rewrite ArchiveMultiple_run, Hc by done. by left. }
    destruct (ArchiveMultiple_spec env range content a d Hrange Hc)
      as (es & r & -> & [rest Hrest] & _).
    right. eexists. cbn [fst disk]. rewrite lookup_insert_eq. split; [done|].
    cbn [entries after_close add_entries truncated app].
    assert (Hnd : NoDup (sort_Strings range)).
    { unfold sort_Strings. rewrite merge_sort_Permutation, Hrange.
      apply NoDup_fst_map_to_list. }
    rewrite Hrest in Hnd. by apply NoDup_app in Hnd as [? _].
Qed.

Lemma entry_names_distinct_witness :
  let env := no_failures tree_plain in
  let a := newZipArchiver "out.zip" in
  well_formed (fs env) = true ∧
  range_of ["b.txt"; "a.txt"] two_files ∧
  names_distinct a ∅ (run (ArchiveDir env ["src"]) a ∅) ∧
  names_distinct a ∅ (run (ArchiveMultiple env ["b.txt"; "a.txt"] two_files) a ∅).
Proof.
  intros env a.
  assert (H : range_of ["b.txt"; "a.txt"] two_files).
  { unfold range_of. vm_compute. apply perm_swap. }
  split; [reflexivity|]. split; [exact H|]. split.
  - exact (proj1 (proj2 (proj2 (entry_names_distinct env a ∅))) ["src"] eq_refl).
  - exact (proj2 (proj2 (proj2 (entry_names_distinct env a ∅))) _ _ H).
Defined.

(** C10. [ArchiveFile] reads the whole file before it opens the target: for
    every path that passes the validation and whose read fails, the error of
    the read is returned and the archiver and the disk are as they were, the
    target neither created nor truncated. *)
Theorem ArchiveFile_read_failure_leaves_target env a d infilename fi e :
  assertValidFile env infilename = inr fi →
  ioutil_ReadFile env infilename = inl e →
  run (ArchiveFile env infilename) a d = (mkState a d, Err e).
Proof. intros Hv Hr. by rewrite ArchiveFile_run, Hv, Hr. Qed.

Lemma ArchiveFile_read_failure_leaves_target_witness :
  let env := no_failures tree_with_unreadable in
  let a := newZipArchiver "out.zip" in
  assertValidFile env ["src"; "y.txt"] = inr (mkFileInfo "y.txt" 0%N 4%Z) ∧
  ioutil_ReadFile env ["src"; "y.txt"] = inl "open src/y.txt: permission denied" ∧
  run (ArchiveFile env ["src"; "y.txt"]) a ∅ =
    (mkState a ∅, Err "open src/y.txt: permission denied").
Proof.
  intros env a. split; [reflexivity|]. split; [reflexivity|].
  exact (ArchiveFile_read_failure_leaves_target env a ∅ ["src"; "y.txt"] _ _
           eq_refl eq_refl).
Defined.

(** * Further properties *)

(** ** How the walk of [ArchiveDir] ends *)

Section Outcomes.
Variables (env : Env) (indirname : path) (p : string).

Lemma walkFn_object_run q fi d c :
  IsDir fi = false →
  ArchiveDir_walkFn env indirname q (Some fi) None (writing p d c) =
  match Rel_fails env indirname q with
  | Some e =>
      (writing p d c, Err (fmt_Errorf "error relativizing file for archival: " e))
  | None =>
      match FileInfoHeader_fails env fi with
      | Some e => (writing p d c, Err (fmt_Errorf "error creating file header: " e))
      | None =>
          let fh := header_of_object indirname (q, fi) in
          match CreateHeader_fails env (entries c) fh with
          | Some e =>
              (writing p d c, Err (fmt_Errorf "error creating file inside archive: " e))
          | None =>
              match ioutil_ReadFile env q with
              | inl e =>
                  (writing p d (add_entries c [mkEntry fh []]),
                   Err (fmt_Errorf "error reading file for archival: " e))
              | inr content =>
                  match Write_fails env (entries c ++ [mkEntry fh []]) content with
                  | Some e => (writing p d (add_entries c [mkEntry fh []]), Err e)
                  | None => (writing p d (add_entries c [mkEntry fh content]), Ok tt)
                  end
              end
          end
      end
  end.
Proof.
  intros H. unfold ArchiveDir_walkFn, filepath_Rel, zip_FileInfoHeader.
  run_monad. rewrite H.
  destruct (Rel_fails env indirname q); run_monad; [done|].
  destruct (FileInfoHeader_fails env fi); run_monad; [done|].
  unfold set_Method, set_Name, header_of_object, relname;
    cbn [Name Method Modified Mode fst snd].
  rewrite CreateHeader_run.
  destruct (CreateHeader_fails env (entries c) _); [done|].
  destruct (ioutil_ReadFile env q) as [e|content]; [done|].
  rewrite Write_run. cbn [app].
  by destruct (Write_fails env _ content).
Qed.

Lemma walks_skip m :
  (∀ s, m s = (s, Ok tt)) → walks env indirname p m [] true.
Proof.
  intros Hm c. exists [], (Ok tt). split; [|split; [done|]].
  - exists [], [], []. by repeat split; try constructor.
  - intros d. by rewrite Hm, add_entries_nil.
Qed.

Lemma walks_panic m :
  (∀ s, m s = (s, Panic)) → walks env indirname p m [] false.
Proof.
  intros Hm c. exists [], Panic. split; [|split; [done|]].
  - exists [], [], []. by repeat split; try constructor.
  - intros d. by rewrite Hm, add_entries_nil.
Qed.

Lemma walks_seq m1 m2 srcs1 srcs2 b1 b2 :
  walks env indirname p m1 srcs1 b1 →
  walks env indirname p m2 srcs2 b2 →
  walks env indirname p (m1 ;; m2) (srcs1 ++ srcs2) (b1 && b2).
Proof.
  intros H1 H2 c. destruct (H1 c) as (es1 & r1 & O1 & S1 & E1).
  destruct O1 as (full1 & done1 & rest1 & -> & F1 & O1).
  destruct r1 as [[]|e|].
  - destruct O1 as [-> ->].
    destruct (H2 (add_entries c full1)) as (es2 & r2 & O2 & S2 & E2).
    destruct O2 as (full2 & done2 & rest2 & -> & F2 & O2).
    cbn [entries add_entries] in O2.
    exists (full1 ++ es2), r2. split; [|split].
    + exists (full1 ++ full2), (done1 ++ done2), rest2.
      split; [by rewrite app_nil_r, app_assoc|].
      split; [by apply Forall2_app|].
      destruct r2 as [[]|e|].
      * by destruct O2 as [-> ->].
      * destruct O2 as (x & rest' & started & -> & Hf & Hes).
        exists x, rest', started. split; [done|].
        rewrite <- app_assoc in Hf. split; [done|].
        destruct started.
        -- destruct Hes as (e' & He' & ->). exists e'. by rewrite app_assoc.
        -- by rewrite Hes.
      * by rewrite O2.
    + intros [_ Hb2]%andb_true_iff. by apply S2.
    + intros d. unfold mbind, M_bind. by rewrite E1, E2, add_entries_app.
  - exists es1, (Err e). split; [|split; [done|]].
    + destruct O1 as (x & rest' & started & -> & Hf & Hes).
      exists full1, done1, (x :: rest' ++ srcs2).
      split; [by rewrite <- app_assoc|]. split; [done|].
      by exists x, (rest' ++ srcs2), started.
    + intros d. unfold mbind, M_bind. by rewrite E1.
  - exists es1, Panic. split; [|split].
    + exists full1, done1, (rest1 ++ srcs2). by rewrite <- app_assoc.
    + intros [Hb1 _]%andb_true_iff. by apply S1.
    + intros d. unfold mbind, M_bind. by rewrite E1.
Qed.

Lemma walks_object q fi :
  IsDir fi = false →
  walks env indirname p (ArchiveDir_walkFn env indirname q (Some fi) None) [(q, fi)] true.
Proof.
  intros H c.
  assert (Hnone : ∀ e started,
            fails_at env indirname (entries c ++ []) (q, fi) started e →
            (if started
             then ∃ es, (∃ e', header e' = header_of_object indirname (q, fi) ∧ es = [] ++ [e']) ∧
                        ∀ d, ArchiveDir_walkFn env indirname q (Some fi) None (writing p d c) =
                             (writing p d (add_entries c es), Err e)
             else ∀ d, ArchiveDir_walkFn env indirname q (Some fi) None (writing p d c) =
                       (writing p d (add_entries c []), Err e)) →
            ∃ es r, walk_outcome env indirname (entries c) [(q, fi)] es r ∧
                    (true = true → r ≠ Panic) ∧
                    ∀ d, ArchiveDir_walkFn env indirname q (Some fi) None (writing p d c) =
                         (writing p d (add_entries c es), r)).
  { intros e started Hf Hrun. destruct started.
    - destruct Hrun as (es & Hes & Hrun). exists es, (Err e).
      split; [|split; [done|done]].
      exists [], [], [(q, fi)]. split; [done|]. split; [constructor|].
      by exists (q, fi), [], true.
    - exists [], (Err e). split; [|split; [done|done]].
      exists [], [], [(q, fi)]. split; [done|]. split; [constructor|].
      by exists (q, fi), [], false. }
  rewrite app_nil_r in Hnone.
  destruct (Rel_fails env indirname q) as [e|] eqn:HR.
  { eapply Hnone; [by apply fails_at_Rel|].
    intros d. by rewrite walkFn_object_run, HR, add_entries_nil. }
  destruct (FileInfoHeader_fails env fi) as [e|] eqn:HH.
  { eapply Hnone; [by apply fails_at_FileInfoHeader|].
    intros d. by rewrite walkFn_object_run, HR, HH, add_entries_nil. }
  destruct (CreateHeader_fails env (entries c) (header_of_object indirname (q, fi)))
    as [e|] eqn:HC.
  { eapply Hnone; [by apply fails_at_CreateHeader|].
    intros d. rewrite walkFn_object_run, HR, HH by done. cbn zeta.
    by rewrite HC, add_entries_nil. }
  destruct (ioutil_ReadFile env q) as [e|content] eqn:Hread.
  { eapply Hnone; [by apply fails_at_ReadFile|].
    exists [mkEntry (header_of_object indirname (q, fi)) []].
    split; [by eexists (mkEntry _ _)|].
    intros d. rewrite walkFn_object_run, HR, HH by done. cbn zeta.
    by rewrite HC, Hread. }
  destruct (Write_fails env (entries c ++ [mkEntry (header_of_object indirname (q, fi)) []])
              content) as [e|] eqn:HW.
  { eapply Hnone; [by eapply fails_at_Write|].
    exists [mkEntry (header_of_object indirname (q, fi)) []].
    split; [by eexists (mkEntry _ _)|].
    intros d. rewrite walkFn_object_run, HR, HH by done. cbn zeta.
    by rewrite HC, Hread, HW. }
  exists [mkEntry (header_of_object indirname (q, fi)) content], (Ok tt).
  split; [|split; [done|]].
  - exists [mkEntry (header_of_object indirname (q, fi)) content], [(q, fi)], [].
    split; [done|]. split; [|done]. constructor; [|constructor]. by split.
  - intros d. rewrite walkFn_object_run, HR, HH by done. cbn zeta.
    by rewrite HC, Hread, HW.
Qed.

Lemma walks_walk n :
  ∀ q, walks env indirname p (walk (ArchiveDir_walkFn env indirname) q n)
         (visited q n) (statable n).
Proof.
  induction n as [perm mt content|mt t _|perm mt listing cs IH|e] using node_ind2;
    intros q; cbn [walk visited statable].
  - apply walks_object, IsDir_file.
  - apply walks_object, IsDir_link.
  - destruct listing as [e|].
    + apply walks_skip. intros s. apply walkFn_dir, IsDir_dir.
    + change (cs ≫= _) with ([] ++ (cs ≫= (λ nc, visited (q ++ [nc.1]) nc.2))).
      change (forallb _ cs) with (true && forallb (λ nc, statable nc.2) cs).
      apply walks_seq.
      { apply walks_skip. intros s. apply walkFn_dir, IsDir_dir. }
      induction cs as [|[name c] cs IHcs]; cbn [for_each forallb].
      { apply walks_skip. by intros s. }
      apply Forall_cons in IH as [IHc IH].
      change (((name, c) :: cs) ≫= _)
        with (visited (q ++ [name]) c ++ (cs ≫= (λ nc, visited (q ++ [nc.1]) nc.2))).
      apply walks_seq; [apply IHc|by apply IHcs].
  - apply walks_panic. intros s. apply walkFn_nil.
Qed.

End Outcomes.

Lemma visited_listable n : ∀ p, listable n = true → visited p n = objects p n.
Proof.
  induction n as [| |perm mt listing cs IH|] using node_ind2; intros p;
    cbn [listable visited objects]; try done.
  destruct listing; [done|]. intros Hcs.
  induction cs as [|[name c] cs IHcs]; [done|].
  apply Forall_cons in IH as [IHc IH].
  cbn [forallb snd] in Hcs. apply andb_true_iff in Hcs as [Hc Hcs].
  rewrite !bind_cons. cbn [fst snd]. by rewrite IHc, IHcs.
Qed.

Lemma ArchiveDir_ends env indirname p fi :
  assertValidDir env indirname = inr fi →
  Create_fails env p = None →
  let root := resolve (fs env) indirname in
  ∃ es r,
    walk_outcome env indirname [] (visited indirname root) es r ∧
    (statable root = true → r ≠ Panic) ∧
    ∀ a d, filepath a = p →
      run (ArchiveDir env indirname) a d =
        (closed p d (after_close env (add_entries truncated es)), r).
Proof.
  intros Hv Hc root.
  destruct (walks_walk env indirname p root indirname truncated) as (es & r & O & S & E).
  exists es, r. split; [done|]. split; [done|].
  intros a d <-. rewrite ArchiveDir_run, Hv, Hc. unfold filepath_Walk.
  fold root. by rewrite E, close_run.
Qed.

(** ** How the loop of [ArchiveMultiple] ends *)

Lemma write_each_cons_run env content k keys p d c :
  write_each env content (k :: keys) (writing p d c) =
  match CreateHeader_fails env (entries c) (header (entry_of_key content k)) with
  | Some e => (writing p d c, Err e)
  | None =>
      match Write_fails env (entries c ++ [mkEntry (header (entry_of_key content k)) []])
              (default [] (content !! k)) with
      | Some e =>
          (writing p d (add_entries c [mkEntry (header (entry_of_key content k)) []]), Err e)
      | None =>
          write_each env content keys (writing p d (add_entries c [entry_of_key content k]))
      end
  end.
Proof.
  unfold entry_of_key; cbn [header write_each].
  unfold zip_Writer_Create. run_monad. rewrite CreateHeader_run.
  destruct (CreateHeader_fails env (entries c) _); [done|].
  rewrite Write_run. cbn [app].
  by destruct (Write_fails env _ _).
Qed.

Lemma write_each_outcome env content p keys : ∀ c,
  ∃ es r,
    keys_outcome env content (entries c) keys es r ∧
    ∀ d, write_each env content keys (writing p d c) = (writing p d (add_entries c es), r).
Proof.
  induction keys as [|k keys IH]; intros c.
  { exists [], (Ok tt). split; [by exists [], []|].
    intros d. by rewrite add_entries_nil. }
  destruct (CreateHeader_fails env (entries c) (header (entry_of_key content k)))
    as [e|] eqn:HC.
  { exists [], (Err e). split.
    - exists [], (k :: keys). split; [done|]. exists k, keys, false.
      split; [done|]. split; [|done]. cbn [fmap list_fmap]. rewrite app_nil_r.
      by constructor.
    - intros d. by rewrite write_each_cons_run, HC, add_entries_nil. }
  destruct (Write_fails env (entries c ++ [mkEntry (header (entry_of_key content k)) []])
              (default [] (content !! k))) as [e|] eqn:HW.
  { exists [mkEntry (header (entry_of_key content k)) []], (Err e). split.
    - exists [], (k :: keys). split; [done|]. exists k, keys, true.
      split; [done|]. split.
      + cbn [fmap list_fmap]. rewrite app_nil_r. by constructor.
      + by exists (mkEntry (header (entry_of_key content k)) []).
    - intros d. by rewrite write_each_cons_run, HC, HW. }
  destruct (IH (add_entries c [entry_of_key content k])) as (es & r & O & E).
  exists (entry_of_key content k :: es), r. split.
  - destruct O as (done & rest & -> & O). cbn [entries add_entries] in O.
    exists (k :: done), rest. split; [done|]. rewrite fmap_cons.
    destruct r as [[]|e|]; [| |done].
    + by destruct O as [-> ->].
    + destruct O as (k' & rest' & started & -> & Hf & Hes).
      exists k', rest', started. split; [done|].
      rewrite <- app_assoc in Hf. split; [done|].
      destruct started.
      * destruct Hes as (e' & He' & ->). by exists e'.
      * by rewrite Hes.
  - intros d. by rewrite write_each_cons_run, HC, HW, E, add_entries_app.
Qed.

Lemma ArchiveMultiple_ends env range content p :
  range_of range content →
  Create_fails env p = None →
  ∃ es r,
    keys_outcome env content [] (sort_Strings range) es r ∧
    ∀ a d, filepath a = p →
      run (ArchiveMultiple env range content) a d =
        (closed p d (after_close env (add_entries truncated es)), r).
Proof.
  intros Hrange Hc.
  destruct (write_each_outcome env content p (sort_Strings range) truncated)
    as (es & r & O & E).
  exists es, r. split; [done|].
  intros a d <-. by rewrite ArchiveMultiple_run, Hc, E, close_run.
Qed.

(** ** What a call depends on *)

Lemma ArchiveContent_determined env p content infilename :
  determined p (ArchiveContent env content infilename).
Proof.
  destruct (Create_fails env p) as [e|] eqn:Hc.
  { exists None, (Err e). split; [done|].
    intros a d <-. by rewrite ArchiveContent_run, Hc. }
  destruct (CreateHeader_fails env [] (mkFileHeader infilename Deflate 0%Z 0%N)) as [e|] eqn:HC.
  { exists (Some (after_close env truncated)), (Err e). split; [by intros ? [= <-]|].
    intros a d <-. rewrite ArchiveContent_run, Hc. cbn zeta. by rewrite HC. }
  destruct (Write_fails env [mkEntry (mkFileHeader infilename Deflate 0%Z 0%N) []] content)
    as [e|] eqn:HW.
  - eexists (Some (after_close env _)), (Err e). split; [by intros ? [= <-]|].
    intros a d <-. rewrite ArchiveContent_run, Hc. cbn zeta. by rewrite HC, HW.
  - eexists (Some (after_close env _)), (Ok tt). split; [by intros ? [= <-]|].
    intros a d <-. rewrite ArchiveContent_run, Hc. cbn zeta. by rewrite HC, HW.
Qed.

Lemma ArchiveFile_determined env p infilename :
  determined p (ArchiveFile env infilename).
Proof.
  destruct (assertValidFile env infilename) as [e|fi] eqn:Hv.
  { exists None, (Err e). split; [done|].
    intros a d _. by rewrite ArchiveFile_run, Hv. }
  destruct (ioutil_ReadFile env infilename) as [e|content] eqn:Hr.
  { exists None, (Err e). split; [done|].
    intros a d _. by rewrite ArchiveFile_run, Hv, Hr. }
  destruct (Create_fails env p) as [e|] eqn:Hc.
  { exists None, (Err e). split; [done|].
    intros a d <-. by rewrite ArchiveFile_run, Hv, Hr, Hc. }
  destruct (FileInfoHeader_fails env fi) as [e|] eqn:HH.
  { eexists (Some (after_close env truncated)), (Err _). split; [by intros ? [= <-]|].
    intros a d <-. by rewrite ArchiveFile_run, Hv, Hr, Hc, HH. }
  destruct (CreateHeader_fails env []
              (mkFileHeader (fi_Name fi) Deflate (fi_ModTime fi) (fi_Mode fi))) as [e|] eqn:HC.
  { eexists (Some (after_close env truncated)), (Err _). split; [by intros ? [= <-]|].
    intros a d <-. rewrite ArchiveFile_run, Hv, Hr, Hc, HH. cbn zeta. by rewrite HC. }
  destruct (Write_fails env
              [mkEntry (mkFileHeader (fi_Name fi) Deflate (fi_ModTime fi) (fi_Mode fi)) []]
              content) as [e|] eqn:HW.
  - eexists (Some (after_close env _)), (Err e). split; [by intros ? [= <-]|].
    intros a d <-. rewrite ArchiveFile_run, Hv, Hr, Hc, HH. cbn zeta. by rewrite HC, HW.
  - eexists (Some (after_close env _)), (Ok tt). split; [by intros ? [= <-]|].
    intros a d <-. rewrite ArchiveFile_run, Hv, Hr, Hc, HH. cbn zeta. by rewrite HC, HW.
Qed.

Lemma ArchiveDir_determined env p indirname :
  determined p (ArchiveDir env indirname).
Proof.
  destruct (assertValidDir env indirname) as [e|fi] eqn:Hv.
  { exists None, (Err e). split; [done|].
    intros a d _. by rewrite ArchiveDir_run, Hv. }
  destruct (Create_fails env p) as [e|] eqn:Hc.
  { exists None, (Err e). split; [done|].
    intros a d <-. by rewrite ArchiveDir_run, Hv, Hc. }
  destruct (ArchiveDir_ends env indirname p fi Hv Hc) as (es & r & _ & _ & E).
  exists (Some (after_close env (add_entries truncated es))), r.
  split; [by intros ? [= <-]|done].
Qed.

Lemma ArchiveMultiple_determined env p range content :
  range_of range content →
  determined p (ArchiveMultiple env range content).
Proof.
  intros Hrange.
  destruct (Create_fails env p) as [e|] eqn:Hc.
  { exists None, (Err e). split; [done|].
    intros a d <-. by rewrite ArchiveMultiple_run, Hc. }
  destruct (ArchiveMultiple_ends env range content p Hrange Hc) as (es & r & _ & E).
  exists (Some (after_close env (add_entries truncated es))), r.
  split; [by intros ? [= <-]|done].
Qed.


Lemma determined_footprint p op a d :
  determined p op → filepath a = p → kept_to_target a d (run op a d).1.
Proof.
  intros (left & r & Hclosed & H) Hp. unfold kept_to_target. rewrite (H a d Hp).
  destruct left as [c|]; cbn [fst this disk filepath]; [|done].
  split; [done|]. split; [|split].
  - intros q Hq. rewrite lookup_insert_ne; [done|]. by rewrite <- Hp.
  - intros q c' Hq Hopen. destruct (decide (p = q)) as [<-|Hne].
    + rewrite lookup_insert_eq in Hq. injection Hq as <-.
      by rewrite (Hclosed c eq_refl) in Hopen.
    + by rewrite lookup_insert_ne in Hq.
  - intros Hw Hf. destruct a as [p' fw w]. cbn in *. by subst.
Qed.

(** ** The properties *)

(** X1. [close] always returns, whatever the archiver holds and whatever the
    two [Close] calls report: it leaves the archiver bound to the same target
    with neither writer nor handle, and closing again changes nothing. *)
Theorem close_total_idempotent env s :
  let out := close env s in
  out.2 = Ok tt ∧
  filepath (this out.1) = filepath (this s) ∧
  writer (this out.1) = None ∧
  filewriter (this out.1) = None ∧
  close env out.1 = out.
Proof.
  destruct s as [[p fw w] d]. intros out. subst out.
  unfold close, zip_Writer_Close, os_File_Close.
  destruct w as [w|], fw as [f|]; run_monad.
  all: repeat match goal with
         | |- context [WriterClose_fails ?e ?x] => destruct (WriterClose_fails e x)
         end; run_monad.
  all: repeat match goal with
         | |- context [FileClose_fails ?e ?x] => destruct (FileClose_fails e x)
         end; run_monad.
  all: done.
Qed.

(** X2. When [os.Create] fails, [open] returns its error and assigns neither
    handle, and each operation that got as far as [open] returns that same
    error, not wrapped, with the archiver and the disk as they were. *)
Theorem failed_open_changes_nothing env a d e :
  Create_fails env (filepath a) = Some e →
  open env (mkState a d) = (mkState a d, Err e) ∧
  (∀ content infilename,
     run (ArchiveContent env content infilename) a d = (mkState a d, Err e)) ∧
  (∀ range content,
     run (ArchiveMultiple env range content) a d = (mkState a d, Err e)) ∧
  (∀ infilename fi content,
     assertValidFile env infilename = inr fi →
     ioutil_ReadFile env infilename = inr content →
     run (ArchiveFile env infilename) a d = (mkState a d, Err e)) ∧
  (∀ indirname fi,
     assertValidDir env indirname = inr fi →
     run (ArchiveDir env indirname) a d = (mkState a d, Err e)).
Proof.
  intros Hc. split; [by rewrite open_run, Hc|]. split; [|split; [|split]].
  - intros content infilename. by rewrite ArchiveContent_run, Hc.
  - intros range content. unfold run, ArchiveMultiple.
    unfold mbind at 1, M_bind at 1. by rewrite open_run, Hc.
  - intros infilename fi content Hv Hr. by rewrite ArchiveFile_run, Hv, Hr, Hc.
  - intros indirname fi Hv. by rewrite ArchiveDir_run, Hv, Hc.
Qed.

Lemma failed_open_changes_nothing_witness :
  let env := no_target tree_plain in
  let a := newZipArchiver "out.zip" in
  let e := "open out.zip: permission denied" in
  Create_fails env (filepath a) = Some e ∧
  assertValidFile env ["src"; "y.txt"] = inr (mkFileInfo "y.txt" 420%N 4%Z) ∧
  ioutil_ReadFile env ["src"; "y.txt"] = inr (text "y") ∧
  assertValidDir env ["src"] = inr (mkFileInfo "src" (N.lor ModeDir 493) 1%Z) ∧
  open env (mkState a ∅) = (mkState a ∅, Err e) ∧
  run (ArchiveContent env (text "1") "one") a ∅ = (mkState a ∅, Err e) ∧
  run (ArchiveMultiple env ["b.txt"; "a.txt"] two_files) a ∅ = (mkState a ∅, Err e) ∧
  run (ArchiveFile env ["src"; "y.txt"]) a ∅ = (mkState a ∅, Err e) ∧
  run (ArchiveDir env ["src"]) a ∅ = (mkState a ∅, Err e).
Proof.
  intros env a e.
  pose proof (failed_open_changes_nothing env a ∅ e eq_refl)
    as (Hopen & Hcontent & Hmul & Hfile & Hdir).
  do 4 (split; [reflexivity|]).
  split; [exact Hopen|]. split; [exact (Hcontent _ _)|]. split; [exact (Hmul _ _)|].
  split.
  - exact (Hfile ["src"; "y.txt"] (mkFileInfo "y.txt" 420%N 4%Z) (text "y") eq_refl eq_refl).
  - exact (Hdir ["src"] (mkFileInfo "src" (N.lor ModeDir 493) 1%Z) eq_refl).
Defined.



(** X4. Every call keeps to its target, however it ends: the archiver stays
    bound to the same target, every other file on the disk is as it was, no
    handle is left open that was not open before, and an archiver that held
    no handle before holds none after. *)
Theorem calls_keep_to_target env a d :
  (∀ content infilename,
     kept_to_target a d (run (ArchiveContent env content infilename) a d).1) ∧
  (∀ infilename, kept_to_target a d (run (ArchiveFile env infilename) a d).1) ∧
  (∀ indirname, kept_to_target a d (run (ArchiveDir env indirname) a d).1) ∧
  (∀ range content,
     range_of range content →
     kept_to_target a d (run (ArchiveMultiple env range content) a d).1).
Proof.
  split; [|split; [|split]]; intros.
  - by eapply determined_footprint, eq_refl; apply ArchiveContent_determined.
  - by eapply determined_footprint, eq_refl; apply ArchiveFile_determined.
  - by eapply determined_footprint, eq_refl; apply ArchiveDir_determined.
  - by eapply determined_footprint, eq_refl; apply ArchiveMultiple_determined.
Qed.

Lemma calls_keep_to_target_witness :
  let env := no_failures tree_plain in
  let a := newZipArchiver "out.zip" in
  let d : gmap string Container := {["other.zip" := mkContainer [] true false]} in
  range_of ["b.txt"; "a.txt"] two_files ∧
  kept_to_target a d (run (ArchiveMultiple env ["b.txt"; "a.txt"] two_files) a d).1.
Proof.
  intros env a d.
  assert (H : range_of ["b.txt"; "a.txt"] two_files).
  { unfold range_of. vm_compute. apply perm_swap. }
  split; [exact H|].
  exact (proj2 (proj2 (proj2 (calls_keep_to_target env a d))) _ _ H).
Defined.



(** X6. [ArchiveContent], [ArchiveFile] and [ArchiveMultiple] never panic:
    no nil writer is dereferenced, no index of [keys] is out of range.
    [ArchiveDir] panics only where the walk meets a name whose [lstat]
    fails. *)
Theorem panics_only_on_nil_FileInfo env a d :
  (∀ content infilename, (run (ArchiveContent env content infilename) a d).2 ≠ Panic) ∧
  (∀ infilename, (run (ArchiveFile env infilename) a d).2 ≠ Panic) ∧
  (∀ range content,
     range_of range content →
     (run (ArchiveMultiple env range content) a d).2 ≠ Panic) ∧
  (∀ indirname,
     statable (resolve (fs env) indirname) = true →
     (run (ArchiveDir env indirname) a d).2 ≠ Panic).
Proof.
  split; [|split; [|split]].
  - intros content infilename. rewrite ArchiveContent_run.
    destruct (Create_fails env (filepath a)); [done|]. cbn zeta.
    destruct (CreateHeader_fails env [] _); [done|].
    by destruct (Write_fails env _ content).
  - intros infilename. rewrite ArchiveFile_run.
    destruct (assertValidFile env infilename) as [|fi]; [done|].
    destruct (ioutil_ReadFile env infilename) as [|content]; [done|].
    destruct (Create_fails env (filepath a)); [done|].
    destruct (FileInfoHeader_fails env fi); [done|]. cbn zeta.
    destruct (CreateHeader_fails env [] _); [done|].
    by destruct (Write_fails env _ content).
  - intros range content Hrange.
    destruct (Create_fails env (filepath a)) as [e|] eqn:Hc.
    { by rewrite ArchiveMultiple_run, Hc. }
    destruct (ArchiveMultiple_ends env range content (filepath a) Hrange Hc)
      as (es & r & (done & rest & _ & O) & E).
    rewrite (E a d eq_refl). by destruct r.
  - intros indirname Hs.
    destruct (assertValidDir env indirname) as [e|fi] eqn:Hv.
    { by rewrite ArchiveDir_run, Hv. }
    destruct (Create_fails env (filepath a)) as [e|] eqn:Hc.
    { by rewrite ArchiveDir_run, Hv, Hc. }
    destruct (ArchiveDir_ends env indirname (filepath a) fi Hv Hc) as (es & r & _ & S & E).
    rewrite (E a d eq_refl). by apply S.
Qed.

Lemma panics_only_on_nil_FileInfo_witness :
  let env := no_failures tree_with_locked_dir in
  let a := newZipArchiver "out.zip" in
  range_of ["b.txt"; "a.txt"] two_files ∧
  statable (resolve (fs env) ["src"]) = true ∧
  (run (ArchiveMultiple env ["b.txt"; "a.txt"] two_files) a ∅).2 ≠ Panic ∧
  (run (ArchiveDir env ["src"]) a ∅).2 ≠ Panic.
Proof.
  intros env a.
  assert (H : range_of ["b.txt"; "a.txt"] two_files).
  { unfold range_of. vm_compute. apply perm_swap. }
  pose proof (panics_only_on_nil_FileInfo env a ∅) as (_ & _ & Hmul & Hdir).
  split; [exact H|]. split; [reflexivity|].
  split; [exact (Hmul _ _ H)|exact (Hdir ["src"] eq_refl)].
Defined.

(** X7. However [ArchiveDir] ends once its target is open, the container
    holds, in the order of the walk, the complete entries of the files the
    walk came to before it stopped, and after them at most the entry of the
    file it stopped at: the function creates that entry before it reads the
    file.  On nil every file the walk came to has its entry.  An error is
    that of the step that failed at that file, under the prefix of that step,
    the error of [Write] bare; nothing is written after it and nothing
    before it is taken back. *)
Theorem ArchiveDir_stops_at_first_failure env a d indirname fi :
  assertValidDir env indirname = inr fi →
  Create_fails env (filepath a) = None →
  let out := run (ArchiveDir env indirname) a d in
  ∃ c, disk out.1 !! filepath a = Some c ∧
       walk_outcome env indirname [] (visited indirname (resolve (fs env) indirname))
         (entries c) out.2.
Proof.
  intros Hv Hc out. subst out.
  destruct (ArchiveDir_ends env indirname (filepath a) fi Hv Hc) as (es & r & O & _ & E).
  rewrite (E a d eq_refl). cbn [fst snd disk].
  eexists. rewrite lookup_insert_eq. split; [done|]. done.
Qed.

Lemma ArchiveDir_stops_at_first_failure_witness :
  let env := full_after_one tree_plain in
  let a := newZipArchiver "out.zip" in
  let out := run (ArchiveDir env ["src"]) a ∅ in
  assertValidDir env ["src"] = inr (mkFileInfo "src" (N.lor ModeDir 493) 1%Z) ∧
  Create_fails env (filepath a) = None ∧
  (∃ c, disk out.1 !! filepath a = Some c ∧
        walk_outcome env ["src"] [] (visited ["src"] (resolve (fs env) ["src"]))
          (entries c) out.2) ∧
  out.2 = Err "error creating file inside archive: write out.zip: no space left" ∧
  listing_at "out.zip" out.1 = [("sub/x.txt", text "x")].
Proof.
  intros env a out.
  split; [reflexivity|]. split; [reflexivity|]. split.
  - exact (ArchiveDir_stops_at_first_failure env a ∅ ["src"]
             (mkFileInfo "src" (N.lor ModeDir 493) 1%Z) eq_refl eq_refl).
  - by vm_compute.
Defined.



(** X9. With nothing to archive the call succeeds over an empty container:
    [ArchiveMultiple] of the empty mapping, and [ArchiveDir] of a tree in
    which the walk comes to no file and to no name it cannot examine. *)
Theorem nothing_to_archive env a d :
  Create_fails env (filepath a) = None →
  (∀ range,
     range_of range ∅ →
     run (ArchiveMultiple env range ∅) a d =
       (closed (filepath a) d (after_close env truncated), Ok tt)) ∧
  (∀ indirname fi,
     assertValidDir env indirname = inr fi →
     visited indirname (resolve (fs env) indirname) = [] →
     statable (resolve (fs env) indirname) = true →
     run (ArchiveDir env indirname) a d =
       (closed (filepath a) d (after_close env truncated), Ok tt)).
Proof.
  intros Hc. split.
  - intros range Hrange.
    assert (range = []) as ->.
    { unfold range_of in Hrange. rewrite map_to_list_empty in Hrange.
      by apply Permutation_nil_r in Hrange. }
    rewrite ArchiveMultiple_run, Hc by done.
    change (sort_Strings []) with (@nil string). cbn [write_each].
    unfold mret, M_ret. by rewrite close_run.
  - intros indirname fi Hv Hnone Hs.
    destruct (ArchiveDir_ends env indirname (filepath a) fi Hv Hc) as (es & r & O & S & E).
    rewrite (E a d eq_refl). rewrite Hnone in O.
    destruct O as (full & done & rest & Hsplit & F & O).
    symmetry in Hsplit. apply app_eq_nil in Hsplit as [-> ->].
    apply Forall2_nil_inv_r in F as ->.
    destruct r as [[]|e|].
    + destruct O as [-> _]. by rewrite add_entries_nil.
    + by destruct O as (x & rest' & started & ? & _).
    + by destruct (S Hs).
Qed.

Lemma nothing_to_archive_witness :
  let env := no_failures tree_without_files in
  let a := newZipArchiver "out.zip" in
  Create_fails env (filepath a) = None ∧
  range_of [] (∅ : gmap string bytes) ∧
  assertValidDir env ["src"] = inr (mkFileInfo "src" (N.lor ModeDir 493) 1%Z) ∧
  visited ["src"] (resolve (fs env) ["src"]) = [] ∧
  statable (resolve (fs env) ["src"]) = true ∧
  run (ArchiveMultiple env [] ∅) a ∅ =
    (closed (filepath a) ∅ (after_close env truncated), Ok tt) ∧
  run (ArchiveDir env ["src"]) a ∅ =
    (closed (filepath a) ∅ (after_close env truncated), Ok tt).
Proof.
  intros env a.
  assert (H : range_of [] (∅ : gmap string bytes)).
  { unfold range_of. by rewrite map_to_list_empty. }
  pose proof (nothing_to_archive env a ∅ eq_refl) as [Hmul Hdir].
  split; [reflexivity|]. split; [exact H|]. do 3 (split; [reflexivity|]).
  split; [exact (Hmul [] H)|].
  exact (Hdir ["src"] (mkFileInfo "src" (N.lor ModeDir 493) 1%Z) eq_refl eq_refl eq_refl).
Defined.

(** X10. [ArchiveMultiple] of a mapping with one key does what
    [ArchiveContent] does with that key as the name and its value as the
    content: the same result, the same archiver and the same disk, under
    every failure. *)
Theorem ArchiveMultiple_of_one_is_ArchiveContent env a d k v :
  run (ArchiveMultiple env [k] {[k := v]}) a d = run (ArchiveContent env v k) a d.
Proof.
  assert (Hrange : range_of [k] ({[k := v]} : gmap string bytes)).
  { unfold range_of. by rewrite map_to_list_singleton. }
  rewrite ArchiveMultiple_run, ArchiveContent_run by done.
  destruct (Create_fails env (filepath a)); [done|]. cbn zeta.
  change (sort_Strings [k]) with [k].
  rewrite write_each_cons_run. unfold entry_of_key. cbn [header entries truncated app].
  rewrite lookup_singleton_eq. cbn [default id].
  destruct (CreateHeader_fails env [] _).
  { by rewrite close_run. }
  destruct (Write_fails env _ v).
  { by rewrite close_run. }
  cbn [write_each]. unfold mret, M_ret. by rewrite close_run.
Qed.

(** X11. When [ArchiveContent] or [ArchiveFile] fails after the target was
    created, and the two [Close] of the cleanup succeed, the target is left
    a closed, complete archive that holds no byte of content: empty, or with
    the one entry that was created and not written.  What the target held
    before is lost. *)
Theorem failure_leaves_empty_archive env a d :
  Create_fails env (filepath a) = None →
  (∀ es, WriterClose_fails env es = None) →
  (∀ content infilename,
     let out := run (ArchiveContent env content infilename) a d in
     out.2 ≠ Ok tt → empty_archive_at (filepath a) out.1) ∧
  (∀ infilename fi content,
     assertValidFile env infilename = inr fi →
     ioutil_ReadFile env infilename = inr content →
     let out := run (ArchiveFile env infilename) a d in
     out.2 ≠ Ok tt → empty_archive_at (filepath a) out.1).
Proof.
  intros Hc Hw.
  assert (Hnone : empty_archive_at (filepath a)
                    (closed (filepath a) d (after_close env truncated))).
  { eexists. cbn [disk]. rewrite lookup_insert_eq. split; [done|].
    unfold after_close. rewrite Hw. cbn. repeat split; [lia|constructor]. }
  assert (Hone : ∀ fh, empty_archive_at (filepath a)
                    (closed (filepath a) d
                       (after_close env (add_entries truncated [mkEntry fh []])))).
  { intros fh. eexists. cbn [disk]. rewrite lookup_insert_eq. split; [done|].
    unfold after_close. rewrite Hw. cbn. repeat split; [lia|by repeat constructor]. }
  split.
  - intros content infilename out. subst out. rewrite ArchiveContent_run, Hc. cbn zeta.
    destruct (CreateHeader_fails env [] _); [done|].
    destruct (Write_fails env _ content); cbn [fst snd]; [intros _; apply Hone|done].
  - intros infilename fi content Hv Hr out. subst out.
    rewrite ArchiveFile_run, Hv, Hr, Hc.
    destruct (FileInfoHeader_fails env fi); [done|]. cbn zeta.
    destruct (CreateHeader_fails env [] _); [done|].
    destruct (Write_fails env _ content); cbn [fst snd]; [intros _; apply Hone|done].
Qed.

Lemma failure_leaves_empty_archive_witness :
  let env := no_space tree_plain in
  let a := newZipArchiver "out.zip" in
  let d : gmap string Container :=
    {["out.zip" := mkContainer [mkEntry (mkFileHeader "old" Deflate 0%Z 0%N) (text "old")]
                     true false]} in
  let out := run (ArchiveFile env ["src"; "y.txt"]) a d in
  Create_fails env (filepath a) = None ∧
  (∀ es, WriterClose_fails env es = None) ∧
  assertValidFile env ["src"; "y.txt"] = inr (mkFileInfo "y.txt" 420%N 4%Z) ∧
  ioutil_ReadFile env ["src"; "y.txt"] = inr (text "y") ∧
  out.2 ≠ Ok tt ∧
  empty_archive_at (filepath a) out.1.
Proof.
  intros env a d out.
  assert (Hw : ∀ es, WriterClose_fails env es = None) by reflexivity.
  assert (Hne : out.2 ≠ Ok tt) by (by vm_compute).
  split; [reflexivity|]. split; [exact Hw|]. do 2 (split; [reflexivity|]).
  split; [exact Hne|].
  exact (proj2 (failure_leaves_empty_archive env a d eq_refl Hw)
           ["src"; "y.txt"] (mkFileInfo "y.txt" 420%N 4%Z) (text "y") eq_refl eq_refl Hne).
Defined.
